(** * golfstream: the backend registry and the ledis-backed stream backend

    A shallow embedding of [backend/create.go] and [backend/ledis.go]:
    the process-wide creator table, the per-stream handle with its
    reader/writer lock ([Add], [Read], [Del], [Len], [Close]), the range
    iterator returned by [Read], and the backend's table of live handles
    ([GetStream], [release]).

    Go's [int] and [uint] are taken at 64 bits.  Integers are [Z] with the
    two's-complement wrap-around of each conversion written out. *)

From Stdlib Require Import ZArith Lia Strings.Byte.
From stdpp Require Import gmap strings list.

Local Open Scope Z_scope.

(** ** Machine integers *)

Definition wrap_signed (w : Z) (z : Z) : Z :=
  (z + 2 ^ (w - 1)) mod 2 ^ w - 2 ^ (w - 1).

Definition int64 (z : Z) : Z := wrap_signed 64 z.
Definition int32 (z : Z) : Z := wrap_signed 32 z.
Definition int (z : Z) : Z := wrap_signed 64 z.
Definition uint (z : Z) : Z := z mod 2 ^ 64.

Definition is_uint (z : Z) : Prop := 0 <= z < 2 ^ 64.
Definition is_int (z : Z) : Prop := - 2 ^ 63 <= z < 2 ^ 63.
Definition is_int32 (z : Z) : Prop := - 2 ^ 31 <= z < 2 ^ 31.

(** ** Events and errors *)

(** [stream.Event] values stored by this backend are byte slices. *)
Definition Event : Type := list byte.

(** The double-quote character, for the messages built with [%s] between
    quotes. *)
Definition dquote : string := String (Ascii.ascii_of_nat 34) EmptyString.

(** Go [error] values.  [errors_New] is an error made from a message,
    [EngineError] an error produced inside the storage engine, [EOI] the
    end-of-input marker [stream.EOI]. *)
Inductive error : Type :=
  | EOI
  | errors_New (msg : string)
  | InvalidRange (pref : string) (from to l : Z)
  | EngineError (msg : string).

Global Instance error_eq_dec : EqDecision error.
Proof. solve_decision. Defined.

(** Modelled from the spec: [checkRange] is called by [Read] and [Del] but
    is defined in a file of the package that is not part of the sources at
    hand.  The spec (section 4.2): after normalization, fails with
    [InvalidRange] unless [0 <= from <= to <= length]. *)
Definition checkRange (from to l : Z) (pref : string) : option error :=
  if (0 <=? from) && (from <=? to) && (to <=? l) then None
  else Some (InvalidRange pref from to l).

(** The index normalization that [Read] and [Del] both apply once the
    length [l] is known: a negative bound [b] becomes [l + 1 + b], first
    [to], then [from]. *)
Definition normalize (from to l : Z) : Z * Z :=
  let to := if to <? 0 then int (l + 1 + to) else to in
  let from := if from <? 0 then int (l + 1 + from) else from in
  (from, to).

(** ** The storage engine: ledisdb lists

    The engine is an external library.  Its list commands follow Redis:
    [LTrim] and [LRange] take an inclusive [start] and an inclusive [stop],
    a negative index counts from the end of the list, and a missing key is
    an empty list.  Inside the engine positions are 32-bit.

    Every engine call may fail.  The failures of a run are scripted in
    [faults]: each call consumes the head of the script and fails with the
    error found there, if any; a call made on an exhausted script succeeds.
    A failing call leaves the lists as they are. *)
Module ledis.

Record DB : Type := mkDB {
  lists : gmap string (list Event);
  faults : list (option error)
}.

Definition lget (d : DB) (key : string) : list Event :=
  default [] (lists d !! key).

Definition llen (d : DB) (key : string) : Z :=
  Z.of_nat (length (lget d key)).

Definition lset (d : DB) (key : string) (l : list Event) : DB :=
  match l with
  | [] => mkDB (delete key (lists d)) (faults d)
  | _ => mkDB (<[key := l]> (lists d)) (faults d)
  end.

(** One engine call: the scripted failure of this call, and the engine
    with the rest of the script. *)
Definition tick (d : DB) : option error * DB :=
  match faults d with
  | [] => (None, d)
  | f :: fs => (f, mkDB (lists d) fs)
  end.

Definition LLen (key : string) (d : DB) : (Z * option error) * DB :=
  let '(f, d) := tick d in
  match f with
  | Some e => ((0, Some e), d)
  | None => ((llen d key, None), d)
  end.

(** The element at [index]; a nil value when there is none. *)
Definition LIndex (key : string) (index : Z) (d : DB)
  : (Event * option error) * DB :=
  let '(f, d) := tick d in
  match f with
  | Some e => (([], Some e), d)
  | None =>
      let i := if 0 <=? index then index else llen d key + index in
      if (0 <=? i) && (i <? llen d key)
      then ((default [] (lget d key !! Z.to_nat i), None), d)
      else (([], None), d)
  end.

Definition LRange (key : string) (start stop : Z) (d : DB)
  : (list Event * option error) * DB :=
  let '(f, d) := tick d in
  match f with
  | Some e => (([], Some e), d)
  | None =>
      let n := llen d key in
      let start := if start <? 0 then n + start else start in
      let stop := if stop <? 0 then n + stop else stop in
      let start := if start <? 0 then 0 else start in
      if (stop <? start) || (n <=? start) then (([], None), d)
      else
        let stop := if n <=? stop then n - 1 else stop in
        ((take (Z.to_nat (stop - start + 1))
               (drop (Z.to_nat start) (lget d key)), None), d)
  end.

Definition LTrim (key : string) (startP stopP : Z) (d : DB)
  : option error * DB :=
  let '(f, d) := tick d in
  match f with
  | Some e => (Some e, d)
  | None =>
      let n := llen d key in
      let start := int32 startP in
      let stop := int32 stopP in
      let start := if start <? 0 then n + start else start in
      let stop := if stop <? 0 then n + stop else stop in
      if (n <=? start) || (stop <? start) then (None, lset d key [])
      else
        let start := if start <? 0 then 0 else start in
        let stop := if n <=? stop then n - 1 else stop in
        (None, lset d key
                 (take (Z.to_nat (stop - start + 1))
                       (drop (Z.to_nat start) (lget d key))))
  end.

Definition RPush (key : string) (args : list Event) (d : DB)
  : (Z * option error) * DB :=
  let '(f, d) := tick d in
  match f with
  | Some e => ((0, Some e), d)
  | None =>
      let l := lget d key ++ args in
      ((Z.of_nat (length l), None), lset d key l)
  end.

(** Removes the whole list; the count of removed elements. *)
Definition LClear (key : string) (d : DB) : (Z * option error) * DB :=
  let '(f, d) := tick d in
  match f with
  | Some e => ((0, Some e), d)
  | None => ((llen d key, None), lset d key [])
  end.

End ledis.

(** ** The reader/writer lock

    [sync.RWMutex] as seen by one thread of control: the number of shared
    holds and whether the exclusive hold is taken.  An acquisition that
    cannot be granted never returns ([Blocked]); releasing a lock that is
    not held is a fatal runtime error. *)
Record RWMutex : Type := mkRW {
  readers : nat;
  writer : bool
}.

Global Instance RWMutex_eq_dec : EqDecision RWMutex.
Proof. solve_decision. Defined.

Inductive outcome (A : Type) : Type :=
  | Done (a : A)
  | Blocked
  | Fatal (msg : string).
Arguments Done {A} a.
Arguments Blocked {A}.
Arguments Fatal {A} msg.

(** ** Stream handles *)

(** [ledisStreamObj].  The fields [db] and [back] are references to the
    engine and to the owning backend, which live in the surrounding state. *)
Record ledisStreamObj : Type := mkObj {
  name : string;
  key : string;
  delLock : RWMutex;
  refcnt : Z
}.

(** What a call on a handle can see and change: the engine, the handle
    itself, and the lines written by [log.Println]. *)
Record world : Type := mkWorld {
  db : ledis.DB;
  self : ledisStreamObj;
  stderr : list string
}.

Definition M (A : Type) : Type := world -> outcome (A * world).

Definition ret {A} (a : A) : M A := fun w => Done (a, w).

Definition bind {A B} (m : M A) (k : A -> M B) : M B :=
  fun w =>
    match m w with
    | Done (a, w') => k a w'
    | Blocked => Blocked
    | Fatal msg => Fatal msg
    end.

Notation "'do' p <- m ; k" := (bind m (fun x => match x with p => k end))
  (at level 10, p pattern, m at level 100, k at level 200).
Notation "'run' m ; k" := (bind m (fun _ => k))
  (at level 10, m at level 100, k at level 200).

Definition set_lock (m : RWMutex) (w : world) : world :=
  mkWorld (db w)
          (mkObj (name (self w)) (key (self w)) m (refcnt (self w)))
          (stderr w).

Definition RLock : M unit := fun w =>
  let m := delLock (self w) in
  if writer m then Blocked
  else Done (tt, set_lock (mkRW (S (readers m)) (writer m)) w).

Definition RUnlock : M unit := fun w =>
  let m := delLock (self w) in
  match readers m with
  | O => Fatal "sync: RUnlock of unlocked RWMutex"
  | S n => Done (tt, set_lock (mkRW n (writer m)) w)
  end.

Definition Lock : M unit := fun w =>
  let m := delLock (self w) in
  if writer m then Blocked
  else match readers m with
       | O => Done (tt, set_lock (mkRW O true) w)
       | S _ => Blocked
       end.

Definition Unlock : M unit := fun w =>
  let m := delLock (self w) in
  if writer m then Done (tt, set_lock (mkRW (readers m) false) w)
  else Fatal "sync: Unlock of unlocked RWMutex".

(** An engine call on the handle's key. *)
Definition engine {A} (f : string -> ledis.DB -> A * ledis.DB) : M A :=
  fun w =>
    let '(a, d) := f (key (self w)) (db w) in
    Done (a, mkWorld d (self w) (stderr w)).

Definition log_Println (line : string) : M unit := fun w =>
  Done (tt, mkWorld (db w) (self w) (stderr w ++ [line])).

(** *** Iterators *)

(** [ledisListStream]: the cursor [num] and the bound [l], both [int32].
    Its [db], [key] and [delLock] fields point into the handle it was made
    from, so [Next] runs on that handle's [world]. *)
Record ledisListStream : Type := mkIter {
  num : Z;
  l : Z
}.

(** Modelled from the spec: [stream.Empty()] comes from the [stream]
    package, which is not part of the sources at hand.  The spec (section
    4.4): an immediately-exhausted empty sequence.  It holds no lock. *)
Inductive Stream : Type :=
  | Empty
  | ListStream (it : ledisListStream).

Definition ledisListStream_Next (it : ledisListStream)
  : M ((Event * option error) * ledisListStream) :=
  if l it <=? num it then
    run RUnlock ;
    ret (([], Some EOI), it)
  else
    do (res, err) <- engine (fun k => ledis.LIndex k (num it)) ;
    match err with
    | Some e =>
        run RUnlock ;
        ret (([], Some e), it)
    | None =>
        ret ((res, None), mkIter (int32 (num it + 1)) (l it))
    end.

Definition Next (s : Stream) : M ((Event * option error) * Stream) :=
  match s with
  | Empty => ret (([], Some EOI), Empty)
  | ListStream it =>
      do (r, it') <- ledisListStream_Next it ;
      ret (r, ListStream it')
  end.

(** A consumer that calls [Next] until the first error, [EOI] included:
    the events produced and the error that ended the run.  [None] when the
    fuel runs out first. *)
Fixpoint drain (fuel : nat) (s : Stream)
  : M (option (list Event * error)) :=
  match fuel with
  | O => ret None
  | S fuel =>
      do ((evt, err), s') <- Next s ;
      match err with
      | Some e => ret (Some ([], e))
      | None =>
          do r <- drain fuel s' ;
          match r with
          | Some (evts, e) => ret (Some (evt :: evts, e))
          | None => ret None
          end
      end
  end.

(** *** Add, Read, Del, Len, Close *)

(** A [stream.Event] handed to [Add] is an [interface{}]: a byte slice, or
    anything else, kept here as its [%v] rendering. *)
Inductive Value : Type :=
  | VBytes (bs : list byte)
  | VOther (shown : string).

Definition Add (evt : Value) : M (option error) :=
  match evt with
  | VOther shown =>
      ret (Some (errors_New
                   ("ledisStreamObj.Add: Expected []byte, got " +:+ shown)))
  | VBytes bs =>
      run RLock ;
      do (_, err) <- engine (fun k => ledis.RPush k [bs]) ;
      run RUnlock ;
      ret err
  end.

Definition Read (afrom : Z) (to : Z) : M (option Stream * option error) :=
  let from := int afrom in
  if from =? to then ret (Some Empty, None)
  else
    run RLock ;
    do (al, err) <- engine ledis.LLen ;
    match err with
    | Some e => ret (None, Some e)
    | None =>
        let l := int al in
        let '(from, to) := normalize from to l in
        if int from =? to then ret (Some Empty, None)
        else
          match checkRange (int from) (int to) (int l)
                           "ledisStreamObj.Read" with
          | Some e => ret (None, Some e)
          | None =>
              ret (Some (ListStream (mkIter (int32 from) (int32 to))), None)
          end
    end.

(** The line [Del] logs when the saved tail could not be pushed back. *)
Definition Del_warning : string :=
  "ledisStreamObj.Del: WARNING: RPush failed, but Trim wasn't rolled back. Lost the data.".

(** The part of [Del] that runs while the exclusive lock is held. *)
Definition Del_locked (from to : Z) : M (bool * option error) :=
  if (from =? 0) && (to =? -1) then
    do (cnt, err) <- engine ledis.LClear ;
    match err with
    | Some e => ret (false, Some e)
    | None => ret (negb (cnt =? 0), None)
    end
  else
    do (l, err) <- engine ledis.LLen ;
    match err with
    | Some e => ret (false, Some e)
    | None =>
        let '(from, to) := normalize from to l in
        if (from =? 0) && (to =? l) then
          do (cnt, err) <- engine ledis.LClear ;
          match err with
          | Some e => ret (false, Some e)
          | None => ret (negb (cnt =? 0), None)
          end
        else if from =? 0 then
          do err <- engine (fun k => ledis.LTrim k (int64 (to - 1)) l) ;
          ret (bool_decide (err = None), err)
        else if to =? l then
          do err <- engine (fun k => ledis.LTrim k 0 (int64 (from - 1))) ;
          ret (bool_decide (err = None), err)
        else
          match checkRange (int from) (int to) (int l)
                           "ledisStreamObj.Del" with
          | Some e => ret (false, Some e)
          | None =>
              do (rest, err) <-
                 engine (fun k => ledis.LRange k (int32 to) (int32 l)) ;
              match err with
              | Some e => ret (false, Some e)
              | None =>
                  do err <- engine (fun k =>
                                      ledis.LTrim k 0 (int64 (from - 1))) ;
                  match err with
                  | Some e => ret (false, Some e)
                  | None =>
                      do (_, err) <- engine (fun k => ledis.RPush k rest) ;
                      match err with
                      | Some _ =>
                          run log_Println Del_warning ;
                          ret (false, err)
                      | None => ret (true, err)
                      end
                  end
              end
          end
    end.

Definition Del (afrom : Z) (ato : Z) : M (bool * option error) :=
  let from := int64 afrom in
  let to := int64 ato in
  if from =? to then ret (true, None)
  else
    run Lock ;
    do r <- Del_locked from to ;
    run Unlock ;
    ret r.

Definition Len : M (Z * option error) :=
  do (l, err) <- engine ledis.LLen ;
  match err with
  | Some e => ret (0, Some e)
  | None => ret (uint l, None)
  end.

Definition Close : M (option error) := ret None.

(** ** The backend and its table of live handles

    Handles are shared by reference: [heap] holds the [ledisStreamObj]
    objects allocated so far, a pointer is an index into it, and [data] is
    the backend's [map[string]*ledisStreamObj] ([None] once [Close] has set
    it to nil).  [GetStream] and [release] run under the backend's mutex
    from their first statement to their last, so each is one atomic step
    here. *)
Record ledisBackend : Type := mkBackend {
  dirname : string;
  data : option (gmap string nat);
  heap : list ledisStreamObj
}.

Definition NewLedis (dir : string) : ledisBackend :=
  mkBackend dir (Some ∅) [].

Definition add_refcnt (d : Z) (o : ledisStreamObj) : ledisStreamObj :=
  mkObj (name o) (key o) (delLock o) (int (refcnt o + d)).

Definition GetStream (nm : string) (b : ledisBackend)
  : outcome ((nat * option error) * ledisBackend) :=
  match data b with
  | None =>
      (* the lookup in a nil map finds nothing, and the store panics *)
      Fatal "assignment to entry in nil map"
  | Some m =>
      let '(v, m, h) :=
        match m !! nm with
        | Some v => (v, m, heap b)
        | None =>
            let v := length (heap b) in
            (v, <[nm := v]> m, heap b ++ [mkObj nm nm (mkRW 0 false) 0])
        end in
      Done ((v, None), mkBackend (dirname b) (Some m) (alter (add_refcnt 1) v h))
  end.

Definition release (s : nat) (b : ledisBackend) : ledisBackend :=
  let h := alter (add_refcnt (-1)) s (heap b) in
  match h !! s with
  | Some o =>
      if refcnt o =? 0
      then mkBackend (dirname b) (delete (name o) <$> data b) h
      else mkBackend (dirname b) (data b) h
  | None => b
  end.

Definition ledisBackend_Close (b : ledisBackend) : ledisBackend * option error :=
  (mkBackend (dirname b) None (heap b), None).

(** The handles that callers hold: [held p] counts the acquisitions of the
    pointer [p] through [GetStream] that have not been given back through
    [release]. *)
Definition holdings : Type := nat -> nat.

Definition acquire (p : nat) (held : holdings) : holdings :=
  fun q => if decide (q = p) then S (held q) else held q.

Definition give_back (p : nat) (held : holdings) : holdings :=
  fun q => if decide (q = p) then pred (held q) else held q.

(** The states a backend made by [NewLedis] reaches in [n] calls from
    callers that release only handles they hold. *)
Inductive reachable : nat -> ledisBackend -> holdings -> Prop :=
  | reach_new dir :
      reachable 0 (NewLedis dir) (fun _ => O)
  | reach_GetStream n b held nm p b' :
      reachable n b held ->
      GetStream nm b = Done ((p, None), b') ->
      reachable (S n) b' (acquire p held)
  | reach_release n b held p :
      reachable n b held ->
      (0 < held p)%nat ->
      reachable (S n) (release p b) (give_back p held)
  | reach_Close n b held :
      reachable n b held ->
      reachable (S n) (ledisBackend_Close b).1 held.

(** The backend as [GetStream] leaves it. *)
Definition after_GetStream (nm : string) (b : ledisBackend) : ledisBackend :=
  match GetStream nm b with
  | Done (_, b') => b'
  | _ => b
  end.

(** A handle is live when a caller holds it or the table points to it. *)
Definition live (b : ledisBackend) (held : holdings) (p : nat) : Prop :=
  (0 < held p)%nat \/ exists m nm, data b = Some m /\ m !! nm = Some p.

Definition one_handle_per_name (b : ledisBackend) (held : holdings) : Prop :=
  forall p q op oq,
    live b held p -> live b held q ->
    heap b !! p = Some op -> heap b !! q = Some oq ->
    name op = name oq -> p = q.

(** While the table is there: it points to objects of the right name that
    are held; every held pointer is the table's entry for its name; every
    object's count is the number of holds on it; and no pointer is held
    more often than calls were made. *)
Definition table_inv (n : nat) (b : ledisBackend) (held : holdings)
           (m : gmap string nat) : Prop :=
  (forall nm p, m !! nm = Some p ->
     exists o, heap b !! p = Some o /\ name o = nm /\ (0 < held p)%nat)
  /\ (forall p, (0 < held p)%nat ->
        exists o, heap b !! p = Some o /\ m !! name o = Some p)
  /\ (forall p o, heap b !! p = Some o -> refcnt o = Z.of_nat (held p))
  /\ (forall p, (held p <= n)%nat).

(** Once [Close] has dropped the table: held pointers of one name are one
    pointer. *)
Definition closed_inv (b : ledisBackend) (held : holdings) : Prop :=
  forall p q op oq,
    (0 < held p)%nat -> (0 < held q)%nat ->
    heap b !! p = Some op -> heap b !! q = Some oq ->
    name op = name oq -> p = q.

Definition backend_inv (n : nat) (b : ledisBackend) (held : holdings)
  : Prop :=
  match data b with
  | Some m => table_inv n b held m
  | None => closed_inv b held
  end.

(** ** The registry of backend creators

    [backends] is the package-level map, nil until the first registration.
    The three functions hold the mutex [block] from entry to return. *)
Section Registry.

Variable Backend : Type.
Variable Args : Type.

Definition BackendCreator : Type := Args -> option Backend * option error.

Definition registry : Type := option (gmap string BackendCreator).

Definition RegisterCreator (btype : string) (creator : BackendCreator)
           (backends : registry) : option error * registry :=
  let m := default ∅ backends in
  match m !! btype with
  | Some _ =>
      (Some (errors_New
               ("RegisterCreator: there already is backend creator for type "
                  +:+ dquote +:+ btype +:+ dquote)),
       Some m)
  | None => (None, Some (<[btype := creator]> m))
  end.

Definition Create (btype : string) (args : Args) (backends : registry)
  : option Backend * option error :=
  match default ∅ backends !! btype with
  | None =>
      (None,
       Some (errors_New
               ("Create: no backend type " +:+ dquote +:+ btype +:+ dquote)))
  | Some r => r args
  end.

(** The creator found under a type name, as both functions look it up. *)
Definition creator_of (btype : string) (backends : registry)
  : option BackendCreator :=
  default ∅ backends !! btype.

Definition CreatorTypes (backends : registry) : list string :=
  (map_to_list (default ∅ backends)).*1.

End Registry.

Arguments RegisterCreator {Backend Args} btype creator backends.
Arguments Create {Backend Args} btype args backends.
Arguments creator_of {Backend Args} btype backends.
Arguments CreatorTypes {Backend Args} backends.

(** ** Worlds *)

(** The stream a handle stands for: the engine's list under its key. *)
Definition stream_of (w : world) : list Event :=
  ledis.lget (db w) (key (self w)).

Definition lock_of (w : world) : RWMutex := delLock (self w).

Definition lock_free (w : world) : Prop := lock_of w = mkRW 0 false.

(** The next engine call succeeds. *)
Definition next_ok (w : world) : Prop := (ledis.tick (db w)).1 = None.

(** No engine call fails from here on. *)
Definition healthy (w : world) : Prop :=
  Forall (fun f => f = None) (ledis.faults (db w)).

(** The next [n] engine calls succeed. *)
Definition calls_ok (n : nat) (d : ledis.DB) : Prop :=
  Forall (fun f => f = None) (take n (ledis.faults d)).

Definition with_db (d : ledis.DB) (w : world) : world :=
  mkWorld d (self w) (stderr w).

(** A caller that reads a range and consumes the sequence to its end. *)
Definition read_range (fuel : nat) (afrom to : Z)
  : M (option (list Event * error)) :=
  do (s, err) <- Read afrom to ;
  match s with
  | Some s => drain fuel s
  | None => ret None
  end.

(** ** Sample data

    Five distinct events and a handle on the stream [s] holding a given
    list, with a given failure script and a free lock. *)
Definition e0 : Event := [Byte.x65; Byte.x30].
Definition e1 : Event := [Byte.x65; Byte.x31].
Definition e2 : Event := [Byte.x65; Byte.x32].
Definition e3 : Event := [Byte.x65; Byte.x33].
Definition e4 : Event := [Byte.x65; Byte.x34].

Definition handle_on (evts : list Event) (script : list (option error))
  : world :=
  mkWorld (ledis.lset (ledis.mkDB ∅ script) "s" evts)
          (mkObj "s" "s" (mkRW 0 false) 1)
          [].

(** ** Callers of a handle *)

(** A caller that adds the events of a list one after the other and stops
    at the first error. *)
Fixpoint Add_each (evts : list Value) : M (option error) :=
  match evts with
  | [] => ret None
  | evt :: evts =>
      do err <- Add evt ;
      match err with
      | Some e => ret (Some e)
      | None => Add_each evts
      end
  end.

(** A caller that calls [Next] a fixed number of times, whatever comes
    back. *)
Fixpoint Next_times (k : nat) (s : Stream)
  : M (list (Event * option error)) :=
  match k with
  | O => ret []
  | S k =>
      do (r, s') <- Next s ;
      do rs <- Next_times k s' ;
      ret (r :: rs)
  end.

(** ** The default creators

    [RegisterDefault] registers the four bindings of the package.  An
    argument handed to a creator is an [interface{}]: a string, or
    anything else, kept as its [%v] rendering.  The constructors of the
    nil, memory and HTTP bindings are defined in files of the package
    that are not at hand and are taken as they come; [NewLedis] opens the
    engine at a directory and selects its database [0], and fails with the
    engine's error when either step fails. *)
Inductive Arg : Type :=
  | ArgString (s : string)
  | ArgOther (shown : string).

Section Defaults.

Variable Backend : Type.
Variable NewNil : Backend.
Variable NewMem : Backend.
Variable NewHttp : string -> Backend.
(** The [*ledisBackend] seen through the [Backend] interface. *)
Variable as_Backend : ledisBackend -> Backend.
(** The error, if any, of opening the engine at a directory and selecting
    database [0]. *)
Variable open_engine : string -> option error.

Definition NewLedis_opened (dir : string) : option Backend * option error :=
  match open_engine dir with
  | Some e => (None, Some e)
  | None => (Some (as_Backend (NewLedis dir)), None)
  end.

Definition nil_creator : BackendCreator Backend Arg :=
  fun _ => (Some NewNil, None).

Definition mem_creator : BackendCreator Backend Arg :=
  fun _ => (Some NewMem, None).

Definition ledis_creator : BackendCreator Backend Arg :=
  fun arg =>
    match arg with
    | ArgString dir => NewLedis_opened dir
    | ArgOther shown =>
        (None,
         Some (errors_New
                 ("ledis creator: Expected *string as arg, got " +:+ shown)))
    end.

Definition http_creator : BackendCreator Backend Arg :=
  fun arg =>
    match arg with
    | ArgString url => (Some (NewHttp url), None)
    | ArgOther shown =>
        (None,
         Some (errors_New
                 ("http-default creator: Expected *string as arg, got "
                    +:+ shown)))
    end.

(** The four registrations, each error dropped as the code drops it. *)
Definition RegisterDefault (backends : registry Backend Arg)
  : registry Backend Arg :=
  let backends := (RegisterCreator "nil" nil_creator backends).2 in
  let backends := (RegisterCreator "mem" mem_creator backends).2 in
  let backends := (RegisterCreator "ledis" ledis_creator backends).2 in
  (RegisterCreator "http" http_creator backends).2.

End Defaults.

Arguments NewLedis_opened {Backend} as_Backend open_engine dir.
Arguments nil_creator {Backend} NewNil.
Arguments mem_creator {Backend} NewMem.
Arguments ledis_creator {Backend} as_Backend open_engine.
Arguments http_creator {Backend} NewHttp.
Arguments RegisterDefault {Backend} NewNil NewMem NewHttp as_Backend
  open_engine backends.

(** * Properties *)

(** ** Machine integers *)

Lemma int_small z : is_int z -> int z = z.
Proof.
  unfold is_int, int, wrap_signed. intros Hz.
  change (2 ^ (64 - 1)) with 9223372036854775808.
  change (2 ^ 64) with 18446744073709551616.
  change (2 ^ 63) with 9223372036854775808 in Hz.
  rewrite Z.mod_small by lia. lia.
Qed.

Lemma int64_small z : is_int z -> int64 z = z.
Proof. apply int_small. Qed.

Lemma int32_small z : is_int32 z -> int32 z = z.
Proof.
  unfold is_int32, int32, wrap_signed. intros Hz.
  change (2 ^ (32 - 1)) with 2147483648.
  change (2 ^ 32) with 4294967296.
  change (2 ^ 31) with 2147483648 in Hz.
  rewrite Z.mod_small by lia. lia.
Qed.

Lemma is_int32_is_int z : is_int32 z -> is_int z.
Proof.
  unfold is_int32, is_int.
  change (2 ^ 31) with 2147483648. change (2 ^ 63) with 9223372036854775808.
  lia.
Qed.

(** ** Range normalization *)

Lemma normalize_nonneg from to l :
  0 <= from -> 0 <= to -> normalize from to l = (from, to).
Proof.
  intros Hf Ht. unfold normalize.
  destruct (Z.ltb_spec to 0); [lia|].
  destruct (Z.ltb_spec from 0); [lia|]. reflexivity.
Qed.

Lemma normalize_neg_to from to l :
  0 <= from -> to < 0 -> is_int (l + 1 + to) ->
  normalize from to l = (from, l + 1 + to).
Proof.
  intros Hf Ht Hi. unfold normalize.
  destruct (Z.ltb_spec to 0); [|lia].
  destruct (Z.ltb_spec from 0); [lia|].
  by rewrite int_small.
Qed.

(** Only the upper bound matters: whatever [from] is, an upper bound
    [0 <= to <= l] written as the negative offset [to - l - 1] normalizes
    as [to] does. *)
Lemma normalize_offset_any_from from to l :
  0 <= to -> to <= l -> is_int l ->
  normalize from (to - l - 1) l = normalize from to l.
Proof.
  intros Hto Htl Hl. unfold normalize.
  destruct (Z.ltb_spec (to - l - 1) 0); [|lia].
  destruct (Z.ltb_spec to 0); [lia|].
  replace (l + 1 + (to - l - 1)) with to by lia.
  rewrite (int_small to); [reflexivity|].
  unfold is_int in *. lia.
Qed.

(** C7: for [from <= to <= length], with [from] an unsigned argument and
    [length] a length the engine can report, writing the upper bound as the
    negative offset [to - length - 1] normalizes to the same pair as
    writing it as [to], so [checkRange] decides both the same way. *)
Theorem normalize_negative_offset (afrom to l : Z) (pref : string) :
  is_uint afrom -> afrom <= to -> to <= l -> is_int l ->
  normalize (int afrom) (to - l - 1) l = normalize (int afrom) to l
  /\ normalize (int afrom) to l = (afrom, to)
  /\ (let '(f1, t1) := normalize (int afrom) (to - l - 1) l in
      let '(f2, t2) := normalize (int afrom) to l in
      checkRange f1 t1 l pref = checkRange f2 t2 l pref).
Proof.
  intros Hu Hft Htl Hl.
  assert (Hia : is_int afrom).
  { unfold is_uint, is_int in *.
    change (2 ^ 63) with 9223372036854775808 in *. lia. }
  rewrite (int_small afrom Hia).
  assert (Hfrom : 0 <= afrom) by (unfold is_uint in Hu; lia).
  assert (Hneg : normalize afrom (to - l - 1) l = (afrom, to)).
  { rewrite normalize_neg_to; [f_equal; lia | lia | lia |].
    replace (l + 1 + (to - l - 1)) with to by lia.
    unfold is_int in *. lia. }
  assert (Hpos : normalize afrom to l = (afrom, to)).
  { apply normalize_nonneg; lia. }
  rewrite Hneg, Hpos. auto.
Qed.

Lemma normalize_negative_offset_witness :
  normalize (int 1) (3 - 5 - 1) 5 = normalize (int 1) 3 5
  /\ normalize (int 1) 3 5 = (1, 3)
  /\ (let '(f1, t1) := normalize (int 1) (3 - 5 - 1) 5 in
      let '(f2, t2) := normalize (int 1) 3 5 in
      checkRange f1 t1 5 "ledisStreamObj.Read"
      = checkRange f2 t2 5 "ledisStreamObj.Read").
Proof.
  apply (normalize_negative_offset 1 3 5 "ledisStreamObj.Read");
    unfold is_uint, is_int; lia.
Defined.

(** ** Engine calls *)

Lemma lget_lset d k l : ledis.lget (ledis.lset d k l) k = l.
Proof.
  unfold ledis.lget, ledis.lset. destruct l; simpl.
  - by rewrite lookup_delete_eq.
  - by rewrite lookup_insert_eq.
Qed.

Lemma faults_lset d k l : ledis.faults (ledis.lset d k l) = ledis.faults d.
Proof. unfold ledis.lset. by destruct l. Qed.

Lemma tick_lists d : ledis.lists (ledis.tick d).2 = ledis.lists d.
Proof. unfold ledis.tick. by destruct (ledis.faults d). Qed.

Lemma tick_lget d k : ledis.lget (ledis.tick d).2 k = ledis.lget d k.
Proof. unfold ledis.lget. by rewrite tick_lists. Qed.

Lemma tick_llen d k : ledis.llen (ledis.tick d).2 k = ledis.llen d k.
Proof. unfold ledis.llen. by rewrite tick_lget. Qed.

Lemma tick_faults d : ledis.faults (ledis.tick d).2 = tail (ledis.faults d).
Proof. destruct d as [ls [|f fs]]; reflexivity. Qed.

(** Case analysis on the scripted outcome of an engine call on [d]. *)
Ltac engine_call d k :=
  let f := fresh "f" in
  let d' := fresh "d'" in
  let Hlget := fresh "Hlget" in
  let Hllen := fresh "Hllen" in
  pose proof (tick_lget d k) as Hlget;
  pose proof (tick_llen d k) as Hllen;
  destruct (ledis.tick d) as [f d']; simpl in *; subst f;
  rewrite ?Hlget, ?Hllen.

(** Decides the integer tests of the goal one after the other, dropping
    the branches the hypotheses exclude. *)
Ltac ztests :=
  repeat match goal with
         | |- context [?x <? ?y] =>
             first [ rewrite (proj2 (Z.ltb_lt x y)) by lia
                   | rewrite (proj2 (Z.ltb_ge x y)) by lia ]
         | |- context [?x <=? ?y] =>
             first [ rewrite (proj2 (Z.leb_le x y)) by lia
                   | rewrite (proj2 (Z.leb_gt x y)) by lia ]
         | |- context [?x =? ?y] =>
             first [ rewrite (proj2 (Z.eqb_eq x y)) by lia
                   | rewrite (proj2 (Z.eqb_neq x y)) by lia ]
         end.

Lemma LLen_ok k d :
  (ledis.tick d).1 = None ->
  ledis.LLen k d = ((ledis.llen d k, None), (ledis.tick d).2).
Proof. unfold ledis.LLen. intros Hok. by engine_call d k. Qed.

Lemma LLen_fail k d e :
  (ledis.tick d).1 = Some e ->
  ledis.LLen k d = ((0, Some e), (ledis.tick d).2).
Proof. unfold ledis.LLen. intros Hf. by engine_call d k. Qed.

Lemma LClear_ok k d :
  (ledis.tick d).1 = None ->
  ledis.LClear k d
  = ((ledis.llen d k, None), ledis.lset (ledis.tick d).2 k []).
Proof. unfold ledis.LClear. intros Hok. by engine_call d k. Qed.

Lemma RPush_ok k args d :
  (ledis.tick d).1 = None ->
  ledis.RPush k args d
  = ((Z.of_nat (length (ledis.lget d k ++ args)), None),
     ledis.lset (ledis.tick d).2 k (ledis.lget d k ++ args)).
Proof. unfold ledis.RPush. intros Hok. by engine_call d k. Qed.

Lemma RPush_fail k args d e :
  (ledis.tick d).1 = Some e ->
  ledis.RPush k args d = ((0, Some e), (ledis.tick d).2).
Proof. unfold ledis.RPush. intros Hf. by engine_call d k. Qed.

Lemma LTrim_fail k a b d e :
  (ledis.tick d).1 = Some e ->
  ledis.LTrim k a b d = (Some e, (ledis.tick d).2).
Proof. unfold ledis.LTrim. intros Hf. by engine_call d k. Qed.

(** [LIndex] inside the list. *)
Lemma LIndex_ok k i d x :
  (ledis.tick d).1 = None ->
  0 <= i ->
  ledis.lget d k !! Z.to_nat i = Some x ->
  ledis.LIndex k i d = ((x, None), (ledis.tick d).2).
Proof.
  unfold ledis.LIndex. intros Hok Hi Hx.
  pose proof (lookup_lt_Some _ _ _ Hx) as Hlt.
  engine_call d k.
  unfold ledis.llen. ztests.
  simpl. do 2 f_equal. exact (f_equal (default []) Hx).
Qed.

(** [LRange] from an index inside the list up to (or past) its end is the
    tail from that index. *)
Lemma LRange_tail k a b d :
  (ledis.tick d).1 = None ->
  0 <= a < ledis.llen d k -> ledis.llen d k - 1 <= b ->
  ledis.LRange k a b d
  = ((drop (Z.to_nat a) (ledis.lget d k), None), (ledis.tick d).2).
Proof.
  unfold ledis.LRange. intros Hok Ha Hb.
  engine_call d k.
  unfold ledis.llen in *.
  ztests. simpl. ztests. do 2 f_equal. apply take_ge. rewrite length_drop.
  destruct (Z.leb_spec (Z.of_nat (length (ledis.lget d k))) b); lia.
Qed.

(** [LTrim] with an inclusive range that starts inside the list keeps
    the elements from [a] to [b], or to the end when [b] is past it. *)
Lemma LTrim_keep k a b d :
  (ledis.tick d).1 = None ->
  is_int32 a -> is_int32 b ->
  0 <= a < ledis.llen d k -> a <= b ->
  ledis.LTrim k a b d
  = (None,
     ledis.lset (ledis.tick d).2 k
       (take (Z.to_nat (Z.min b (ledis.llen d k - 1) - a + 1))
             (drop (Z.to_nat a) (ledis.lget d k)))).
Proof.
  unfold ledis.LTrim. intros Hok Ha32 Hb32 Ha Hab.
  engine_call d k.
  rewrite !int32_small by assumption.
  unfold ledis.llen in *.
  ztests. simpl. ztests. do 4 f_equal.
  destruct (Z.leb_spec (Z.of_nat (length (ledis.lget d k))) b); lia.
Qed.

(** ** Empty ranges *)

(** C6: for every [x] that is both a [uint] and an [int], on every world
    (whatever the stream holds and whoever holds the lock), [Read x x]
    gives the empty sequence and [Del x x] gives [true] with no error, both
    leaving the lock, the engine and the log exactly as they were; the
    empty sequence is exhausted at its first [Next]. *)
Theorem Read_Del_same_bounds_noop (x : Z) (w : world) :
  0 <= x < 2 ^ 63 ->
  Read x x w = Done ((Some Empty, None), w)
  /\ Next Empty w = Done (([], Some EOI, Empty), w)
  /\ Del x x w = Done ((true, None), w).
Proof.
  intros Hx. unfold Read, Del.
  rewrite int_small by (unfold is_int; lia).
  rewrite !Z.eqb_refl. repeat split.
Qed.

Lemma Read_Del_same_bounds_noop_witness :
  let w := mkWorld (ledis.mkDB ∅ []) (mkObj "s" "s" (mkRW 0 true) 1) [] in
  Read 0 0 w = Done ((Some Empty, None), w)
  /\ Next Empty w = Done (([], Some EOI, Empty), w)
  /\ Del 0 0 w = Done ((true, None), w).
Proof.
  intros w. apply (Read_Del_same_bounds_noop 0 w). lia.
Defined.

(** ** Clearing the whole stream *)

Lemma engine_LClear_ok w :
  next_ok w ->
  engine ledis.LClear w
  = Done ((ledis.llen (db w) (key (self w)), None),
          mkWorld (ledis.lset (ledis.tick (db w)).2 (key (self w)) [])
                  (self w) (stderr w)).
Proof.
  unfold next_ok, engine, ledis.LClear. intros Hok.
  destruct (ledis.tick (db w)) as [f d] eqn:Ht. simpl in *. subst f.
  rewrite <- (tick_llen (db w)). by rewrite Ht.
Qed.

(** C5: [Del 0 (-1)], when the lock is free and the engine call succeeds:
    on a non-empty stream it returns [true] with no error and the stream is
    empty afterwards; on an empty stream it returns [false] with no error;
    either way the lock is free again. *)
Theorem Del_whole_stream (w : world) :
  lock_free w -> next_ok w ->
  exists w',
    Del 0 (-1) w = Done ((negb (bool_decide (stream_of w = [])), None), w')
    /\ stream_of w' = []
    /\ lock_free w'
    /\ (stream_of w <> [] -> Del 0 (-1) w = Done ((true, None), w'))
    /\ (stream_of w = [] -> Del 0 (-1) w = Done ((false, None), w')).
Proof.
  intros Hfree Hok.
  destruct w as [d [nm k lk rc] lg]. unfold lock_free, lock_of in Hfree.
  simpl in Hfree. subst lk.
  unfold Del, bind, Lock, Del_locked. simpl.
  unfold bind.
  rewrite engine_LClear_ok by exact Hok. simpl.
  unfold ret, Unlock, set_lock. simpl.
  eexists. split; [|split; [|split; [|split]]].
  - f_equal. f_equal. f_equal.
    unfold stream_of, ledis.llen. simpl.
    by destruct (ledis.lget d k).
  - unfold stream_of, ledis.lget. simpl. by rewrite lookup_delete_eq.
  - reflexivity.
  - intros Hne. unfold stream_of, ledis.llen in *. simpl in *.
    destruct (ledis.lget d k); [done|]. reflexivity.
  - intros He. unfold stream_of, ledis.llen in *. simpl in *.
    rewrite He. reflexivity.
Qed.

Lemma Del_whole_stream_witness :
  let w := handle_on [e0; e1; e2] [] in
  exists w',
    Del 0 (-1) w = Done ((negb (bool_decide (stream_of w = [])), None), w')
    /\ stream_of w' = []
    /\ lock_free w'
    /\ (stream_of w <> [] -> Del 0 (-1) w = Done ((true, None), w'))
    /\ (stream_of w = [] -> Del 0 (-1) w = Done ((false, None), w')).
Proof.
  intros w. apply (Del_whole_stream w); reflexivity.
Defined.

(** ** The registry *)

Section RegistryFacts.

Context {Backend Args : Type}.
Implicit Types (backends : registry Backend Args).
Implicit Types (creator : BackendCreator Backend Args).

Lemma creator_of_nil btype :
  creator_of (Backend := Backend) (Args := Args) btype None = None.
Proof. unfold creator_of. simpl. apply lookup_empty. Qed.

Lemma RegisterCreator_fresh btype creator backends :
  creator_of btype backends = None ->
  exists backends',
    RegisterCreator btype creator backends = (None, backends')
    /\ creator_of btype backends' = Some creator
    /\ forall other, other <> btype ->
         creator_of other backends' = creator_of other backends.
Proof.
  unfold creator_of, RegisterCreator. intros ->.
  eexists. split; [reflexivity|]. simpl. split.
  - apply lookup_insert_eq.
  - intros other Hne. by rewrite lookup_insert_ne.
Qed.

(** C9: registering under a type name that already has a creator fails
    with the duplicate-type error and leaves the table as it was;
    [Create] on a type name without a creator fails with the unknown-type
    error; [Create] on a registered type name returns what the registered
    creator returns on the given argument. *)
Theorem registry_duplicate_and_unknown btype creator args backends :
  (forall old, creator_of btype backends = Some old ->
     RegisterCreator btype creator backends
     = (Some (errors_New
                ("RegisterCreator: there already is backend creator for type "
                   +:+ dquote +:+ btype +:+ dquote)),
        backends)
     /\ Create btype args backends = old args)
  /\ (creator_of btype backends = None ->
      Create btype args backends
      = (None,
         Some (errors_New
                 ("Create: no backend type " +:+ dquote +:+ btype +:+ dquote)))).
Proof.
  change (Create btype args backends)
    with (match creator_of btype backends with
          | None =>
              (None,
               Some (errors_New
                       ("Create: no backend type "
                          +:+ dquote +:+ btype +:+ dquote)))
          | Some r => r args
          end).
  split.
  - intros old Hold. rewrite Hold. split; [|reflexivity].
    unfold RegisterCreator. fold (creator_of btype backends).
    rewrite Hold. destruct backends as [m|]; [reflexivity|].
    by rewrite creator_of_nil in Hold.
  - intros ->. reflexivity.
Qed.

End RegistryFacts.

Lemma registry_duplicate_and_unknown_witness :
  let ledis_creator : BackendCreator string string :=
    fun dir => (Some ("ledis at " +:+ dir), None) in
  let other_creator : BackendCreator string string :=
    fun _ => (None, Some (errors_New "refused")) in
  let backends := (RegisterCreator "ledis" ledis_creator None).2 in
  (RegisterCreator "ledis" other_creator backends
   = (Some (errors_New
              ("RegisterCreator: there already is backend creator for type "
                 +:+ dquote +:+ "ledis" +:+ dquote)),
      backends)
   /\ Create "ledis" "/tmp/db" backends = (Some "ledis at /tmp/db", None))
  /\ Create "mem" "/tmp/db" backends
     = (None,
        Some (errors_New
                ("Create: no backend type " +:+ dquote +:+ "mem" +:+ dquote))).
Proof.
  intros ledis_creator other_creator backends.
  destruct (registry_duplicate_and_unknown
              "ledis" other_creator "/tmp/db" backends) as [Hdup _].
  destruct (registry_duplicate_and_unknown
              "mem" other_creator "/tmp/db" backends) as [_ Hunk].
  split.
  - apply (Hdup ledis_creator). reflexivity.
  - apply Hunk. reflexivity.
Defined.

(** ** Calls on a handle *)

Arguments ledis.lset : simpl never.
Arguments ledis.lget : simpl never.
Arguments ledis.tick : simpl never.
Arguments ledis.llen : simpl never.
Arguments normalize : simpl never.
Arguments checkRange : simpl never.
Arguments int : simpl never.
Arguments int32 : simpl never.
Arguments int64 : simpl never.

Lemma bind_Done {A B} (m : M A) (k : A -> M B) w a w' :
  m w = Done (a, w') -> bind m k w = k a w'.
Proof. unfold bind. by intros ->. Qed.

Lemma engine_eq {A} (f : string -> ledis.DB -> A * ledis.DB) w :
  engine f w
  = Done ((f (key (self w)) (db w)).1,
          with_db (f (key (self w)) (db w)).2 w).
Proof. unfold engine, with_db. by destruct (f _ _). Qed.

Lemma RLock_ok w :
  writer (lock_of w) = false ->
  RLock w = Done (tt, set_lock (mkRW (S (readers (lock_of w))) false) w).
Proof. unfold RLock, lock_of. by intros ->. Qed.

(** An exclusive acquisition does not return while a shared hold is out:
    every [Del] that has a range to delete blocks. *)
Lemma Del_blocked afrom ato w :
  int64 afrom <> int64 ato ->
  (0 < readers (lock_of w))%nat ->
  Del afrom ato w = Blocked.
Proof.
  intros Hne Hr. unfold Del.
  destruct (Z.eqb_spec (int64 afrom) (int64 ato)); [done|].
  unfold bind, Lock, lock_of in *.
  destruct (writer (delLock (self w))); [done|].
  destruct (readers (delLock (self w))); [lia|done].
Qed.

(** On every path of [Read] past the first test the shared lock is taken
    and is still held at the return. *)
Lemma Read_keeps_lock afrom to w :
  int afrom <> to ->
  writer (lock_of w) = false ->
  exists r w',
    Read afrom to w = Done (r, w')
    /\ lock_of w' = mkRW (S (readers (lock_of w))) false.
Proof.
  intros Hne Hw. unfold Read.
  destruct (Z.eqb_spec (int afrom) to); [done|].
  rewrite (bind_Done _ _ _ _ _ (RLock_ok w Hw)).
  unfold bind. rewrite engine_eq.
  destruct (ledis.LLen _ _) as [[al [e|]] d']; cbn.
  - by eexists _, _.
  - destruct (normalize (int afrom) to (int al)) as [f t].
    destruct (int f =? t); [unfold ret; by eexists _, _|].
    destruct (checkRange (int f) (int t) (int (int al)) "ledisStreamObj.Read");
      unfold ret; by eexists _, _.
Qed.

Lemma Read_LLen_fail afrom to w e :
  int afrom <> to ->
  writer (lock_of w) = false ->
  (ledis.tick (db w)).1 = Some e ->
  Read afrom to w
  = Done ((None, Some e),
          with_db (ledis.tick (db w)).2
            (set_lock (mkRW (S (readers (lock_of w))) false) w)).
Proof.
  intros Hne Hw Hf. unfold Read.
  destruct (Z.eqb_spec (int afrom) to); [done|].
  rewrite (bind_Done _ _ _ _ _ (RLock_ok w Hw)).
  unfold bind. rewrite engine_eq. cbn.
  by rewrite (LLen_fail _ _ e Hf).
Qed.

Lemma Read_checkRange_fail afrom to w f t e :
  int afrom <> to ->
  writer (lock_of w) = false ->
  (ledis.tick (db w)).1 = None ->
  normalize (int afrom) to (int (ledis.llen (db w) (key (self w)))) = (f, t) ->
  int f <> t ->
  checkRange (int f) (int t) (int (int (ledis.llen (db w) (key (self w)))))
             "ledisStreamObj.Read" = Some e ->
  Read afrom to w
  = Done ((None, Some e),
          with_db (ledis.tick (db w)).2
            (set_lock (mkRW (S (readers (lock_of w))) false) w)).
Proof.
  intros Hne Hw Hok Hn Hft Hc. unfold Read.
  destruct (Z.eqb_spec (int afrom) to); [done|].
  rewrite (bind_Done _ _ _ _ _ (RLock_ok w Hw)).
  unfold bind. rewrite engine_eq. cbn.
  rewrite (LLen_ok _ _ Hok). cbn. rewrite Hn.
  destruct (Z.eqb_spec (int f) t); [done|].
  by rewrite Hc.
Qed.

(** C10: a [Read] whose raw bounds differ takes the shared lock and, when
    the length query fails or [checkRange] rejects the normalized range,
    returns that error with the lock still held: one more shared hold than
    before the call.  From then on every [Del] with a range to delete
    blocks. *)
Theorem Read_failure_keeps_shared_lock (afrom to : Z) (w : world) :
  int afrom <> to ->
  writer (lock_of w) = false ->
  let held := mkRW (S (readers (lock_of w))) false in
  let len := int (ledis.llen (db w) (key (self w))) in
  (forall e,
     (ledis.tick (db w)).1 = Some e ->
     exists w',
       Read afrom to w = Done ((None, Some e), w')
       /\ lock_of w' = held
       /\ forall f t, int64 f <> int64 t -> Del f t w' = Blocked)
  /\ (forall e,
        (ledis.tick (db w)).1 = None ->
        int (normalize (int afrom) to len).1 <> (normalize (int afrom) to len).2 ->
        checkRange (int (normalize (int afrom) to len).1)
                   (int (normalize (int afrom) to len).2)
                   (int len) "ledisStreamObj.Read" = Some e ->
        exists w',
          Read afrom to w = Done ((None, Some e), w')
          /\ lock_of w' = held
          /\ forall f t, int64 f <> int64 t -> Del f t w' = Blocked).
Proof.
  intros Hne Hw held len. split.
  - intros e Hf. eexists. split; [by apply Read_LLen_fail|].
    split; [reflexivity|].
    intros f t Hft. apply Del_blocked; [done|]. cbn. lia.
  - intros e Hok Hft Hc.
    destruct (normalize (int afrom) to len) as [f t] eqn:Hn.
    eexists. split; [by eapply Read_checkRange_fail|].
    split; [reflexivity|].
    intros f' t' Hft'. apply Del_blocked; [done|]. cbn. lia.
Qed.

Lemma Read_failure_keeps_shared_lock_witness :
  let w := handle_on [e0; e1; e2] [Some (EngineError "i/o error")] in
  (exists w',
     Read 0 2 w = Done ((None, Some (EngineError "i/o error")), w')
     /\ lock_of w' = mkRW 1 false
     /\ forall f t, int64 f <> int64 t -> Del f t w' = Blocked)
  /\ (let w := handle_on [e0; e1; e2] [] in
      exists w',
        Read 2 7 w
        = Done ((None, Some (InvalidRange "ledisStreamObj.Read" 2 7 3)), w')
        /\ lock_of w' = mkRW 1 false
        /\ forall f t, int64 f <> int64 t -> Del f t w' = Blocked).
Proof.
  intros w. split.
  - assert (H1 : int 0 <> 2) by (vm_compute; discriminate).
    assert (H2 : writer (lock_of w) = false) by reflexivity.
    destruct (Read_failure_keeps_shared_lock 0 2 w H1 H2) as [Hfail _].
    apply Hfail. reflexivity.
  - intros w'.
    assert (H1 : int 2 <> 7) by (vm_compute; discriminate).
    assert (H2 : writer (lock_of w') = false) by reflexivity.
    destruct (Read_failure_keeps_shared_lock 2 7 w' H1 H2) as [_ Hrange].
    apply Hrange.
    + reflexivity.
    + vm_compute. discriminate.
    + vm_compute. reflexivity.
Defined.

(** The early return on equal normalized bounds, in general: the empty
    sequence comes back and the shared hold stays. *)
Lemma Read_normalized_equal afrom to w f t :
  int afrom <> to ->
  writer (lock_of w) = false ->
  (ledis.tick (db w)).1 = None ->
  normalize (int afrom) to (int (ledis.llen (db w) (key (self w)))) = (f, t) ->
  int f = t ->
  Read afrom to w
  = Done ((Some Empty, None),
          with_db (ledis.tick (db w)).2
            (set_lock (mkRW (S (readers (lock_of w))) false) w)).
Proof.
  intros Hne Hw Hok Hn Hft. unfold Read.
  destruct (Z.eqb_spec (int afrom) to); [done|].
  rewrite (bind_Done _ _ _ _ _ (RLock_ok w Hw)).
  unfold bind. rewrite engine_eq. cbn.
  rewrite (LLen_ok _ _ Hok). cbn. rewrite Hn.
  by destruct (Z.eqb_spec (int f) t).
Qed.

(** C4 (the code departs from it): on a stream of three events with the
    lock free, [Read 3 (-1)] has raw bounds that differ and normalized
    bounds that are equal.  It returns the empty sequence, and the shared
    hold it took is still out at the return: the lock is not in the state
    it was in before the call, and nothing is left that could release it. *)
Theorem Read_normalized_empty_leaves_lock_held :
  let w := handle_on [e0; e1; e2] [] in
  exists w',
    Read 3 (-1) w = Done ((Some Empty, None), w')
    /\ lock_of w = mkRW 0 false
    /\ lock_of w' = mkRW 1 false
    /\ Del 0 (-1) w' = Blocked.
Proof.
  intros w. eexists. split; [vm_compute; reflexivity|].
  repeat split.
Qed.

(** ** Scripts of engine failures *)

Lemma tick_fst d :
  (ledis.tick d).1 = default None (head (ledis.faults d)).
Proof. by destruct d as [ls [|f fs]]. Qed.

Lemma calls_ok_S n d :
  calls_ok (S n) d -> (ledis.tick d).1 = None /\ calls_ok n (ledis.tick d).2.
Proof.
  unfold calls_ok. rewrite tick_fst, tick_faults.
  destruct (ledis.faults d) as [|f fs]; simpl.
  - intros _. split; [done|]. by rewrite take_nil.
  - intros H. by inversion H.
Qed.

Lemma calls_ok_lset n d k l : calls_ok n (ledis.lset d k l) <-> calls_ok n d.
Proof. unfold calls_ok. by rewrite faults_lset. Qed.

Lemma healthy_calls_ok n w : healthy w -> calls_ok n (db w).
Proof.
  unfold healthy, calls_ok. intros H.
  apply Forall_take. exact H.
Qed.

Lemma healthy_tick d :
  Forall (fun f => f = None) (ledis.faults d) ->
  Forall (fun f => f = None) (ledis.faults (ledis.tick d).2).
Proof.
  rewrite tick_faults. destruct (ledis.faults d); simpl; [done|].
  by inversion 1.
Qed.

(** ** Del past its first test *)

Lemma Lock_ok w :
  lock_free w -> Lock w = Done (tt, set_lock (mkRW 0 true) w).
Proof. unfold lock_free, lock_of, Lock. by intros ->. Qed.

Lemma Unlock_ok w :
  lock_of w = mkRW 0 true -> Unlock w = Done (tt, set_lock (mkRW 0 false) w).
Proof. unfold lock_of, Unlock. by intros ->. Qed.

(** With the lock free, [Del] is its locked part run between [Lock] and
    [Unlock], provided that part hands the handle back as it got it. *)
Lemma Del_unlocked afrom ato w r w1 :
  int64 afrom <> int64 ato ->
  lock_free w ->
  Del_locked (int64 afrom) (int64 ato) (set_lock (mkRW 0 true) w)
  = Done (r, w1) ->
  lock_of w1 = mkRW 0 true ->
  Del afrom ato w = Done (r, set_lock (mkRW 0 false) w1).
Proof.
  intros Hne Hfree Hbody Hlock. unfold Del.
  destruct (Z.eqb_spec (int64 afrom) (int64 ato)); [done|].
  rewrite (bind_Done _ _ _ _ _ (Lock_ok w Hfree)).
  rewrite (bind_Done _ _ _ _ _ Hbody).
  by rewrite (bind_Done _ _ _ _ _ (Unlock_ok w1 Hlock)).
Qed.

Lemma normalize_raw_from f t l from to :
  normalize f t l = (from, to) -> 0 < from -> f <> 0.
Proof.
  unfold normalize. intros [= <- <-] Hpos ->. simpl in Hpos. lia.
Qed.

(** The general case of [Del] up to the point where the saved tail is
    pushed back: the length query, the reading of the tail and the trim to
    the prefix have succeeded. *)
Lemma Del_locked_middle f t from to w :
  let k := key (self w) in
  let len := ledis.llen (db w) k in
  normalize f t len = (from, to) ->
  0 < from -> from <= to -> to < len -> len < 2 ^ 31 ->
  calls_ok 3 (db w) ->
  Del_locked f t w
  = (do (_, err) <- engine (fun k => ledis.RPush k
                                     (drop (Z.to_nat to) (ledis.lget (db w) k))) ;
     match err with
     | Some _ =>
         run log_Println Del_warning ;
         ret (false, err)
     | None => ret (true, err)
     end)
      (with_db (ledis.lset
                  (ledis.tick (ledis.tick (ledis.tick (db w)).2).2).2 k
                  (take (Z.to_nat from) (ledis.lget (db w) k))) w).
Proof.
  intros k len Hn Hfrom Hft Hto Hlen Hok.
  apply calls_ok_S in Hok as [Hok1 Hok].
  apply calls_ok_S in Hok as [Hok2 Hok].
  apply calls_ok_S in Hok as [Hok3 _].
  pose proof (normalize_raw_from _ _ _ _ _ Hn Hfrom) as Hraw.
  change (2 ^ 31) with 2147483648 in Hlen.
  assert (Hi32 : forall z, 0 <= z <= len -> is_int32 z).
  { intros z Hz. unfold is_int32. change (2 ^ 31) with 2147483648. lia. }
  assert (Hi : forall z, 0 <= z <= len -> is_int z).
  { intros z Hz. by apply is_int32_is_int, Hi32. }
  unfold Del_locked.
  destruct (Z.eqb_spec f 0); [done|]. cbn [andb].
  unfold bind at 1. rewrite engine_eq, (LLen_ok _ _ Hok1). cbn [fst snd].
  fold k. fold len. rewrite Hn.
  destruct (Z.eqb_spec from 0); [lia|]. cbn [andb].
  destruct (Z.eqb_spec to len); [lia|].
  rewrite !int_small by (apply Hi; lia).
  unfold checkRange.
  destruct (Z.leb_spec 0 from); [|lia].
  destruct (Z.leb_spec from to); [|lia].
  destruct (Z.leb_spec to len); [|lia]. cbn [andb].
  unfold bind at 1. rewrite engine_eq. cbn [db self with_db key].
  rewrite !int32_small by (apply Hi32; lia).
  rewrite LRange_tail; [|done|rewrite tick_llen; fold k len; lia
                       |rewrite tick_llen; fold k len; lia].
  cbn [fst snd]. rewrite tick_lget.
  unfold bind at 1. rewrite engine_eq. cbn [db self with_db key].
  rewrite ?int64_small by (apply Hi; lia).
  rewrite LTrim_keep;
    [|done|apply Hi32; lia|apply Hi32; lia
     |rewrite !tick_llen; fold k len; lia|lia].
  cbn [fst snd]. rewrite !tick_llen, !tick_lget. fold k len.
  replace (Z.to_nat (Z.min (from - 1) (len - 1) - 0 + 1)) with (Z.to_nat from)
    by lia.
  reflexivity.
Qed.

(** ** Reading a range to its end *)

Lemma Read_ok afrom to w :
  let len := ledis.llen (db w) (key (self w)) in
  0 <= afrom -> afrom < to -> to <= len -> len < 2 ^ 31 ->
  writer (lock_of w) = false ->
  (ledis.tick (db w)).1 = None ->
  Read afrom to w
  = Done ((Some (ListStream (mkIter afrom to)), None),
          with_db (ledis.tick (db w)).2
            (set_lock (mkRW (S (readers (lock_of w))) false) w)).
Proof.
  intros len Hfrom Hft Hto Hlen Hw Hok.
  change (2 ^ 31) with 2147483648 in Hlen.
  assert (Hi32 : forall z, 0 <= z <= len -> is_int32 z).
  { intros z Hz. unfold is_int32. change (2 ^ 31) with 2147483648. lia. }
  assert (Hi : forall z, 0 <= z <= len -> is_int z).
  { intros z Hz. by apply is_int32_is_int, Hi32. }
  unfold Read. rewrite (int_small afrom) by (apply Hi; lia).
  destruct (Z.eqb_spec afrom to); [lia|].
  rewrite (bind_Done _ _ _ _ _ (RLock_ok w Hw)).
  unfold bind. rewrite engine_eq. cbn [db self with_db key set_lock].
  rewrite (LLen_ok _ _ Hok). cbn [fst snd]. fold len.
  rewrite (int_small len) by (apply Hi; lia).
  rewrite normalize_nonneg by lia.
  rewrite !int_small by (apply Hi; lia).
  destruct (Z.eqb_spec afrom to); [lia|].
  unfold checkRange.
  destruct (Z.leb_spec 0 afrom); [|lia].
  destruct (Z.leb_spec afrom to); [|lia].
  destruct (Z.leb_spec to len); [|lia]. cbn [andb].
  rewrite !int32_small by (apply Hi32; lia).
  reflexivity.
Qed.

(** An iterator over [[num, num + n)] inside the stream, consumed to its
    end while the engine stays healthy: it yields the [n] events from
    [num] on, ends with [EOI], and gives back one shared hold. *)
Lemma drain_ListStream (n : nat) :
  forall (pos : Z) (w : world) (r : nat) (wr : bool),
    0 <= pos ->
    pos + Z.of_nat n <= ledis.llen (db w) (key (self w)) ->
    ledis.llen (db w) (key (self w)) < 2 ^ 31 ->
    healthy w ->
    lock_of w = mkRW (S r) wr ->
    exists w',
      drain (S n) (ListStream (mkIter pos (pos + Z.of_nat n))) w
      = Done (Some (take n (drop (Z.to_nat pos) (stream_of w)), EOI), w')
      /\ lock_of w' = mkRW r wr
      /\ stream_of w' = stream_of w
      /\ healthy w'
      /\ stderr w' = stderr w.
Proof.
  induction n as [|n IH]; intros pos w r wr Hnum Hend Hlen Hh Hlock.
  - exists (set_lock (mkRW r wr) w). split; [|by repeat split].
    cbn [drain Next]. unfold bind, ledisListStream_Next. cbn [l num].
    replace (pos + Z.of_nat 0) with pos by lia.
    rewrite Z.leb_refl. unfold bind, RUnlock. fold (lock_of w).
    rewrite Hlock. cbn. rewrite take_0. reflexivity.
  - assert (Hin : (Z.to_nat pos < length (stream_of w))%nat).
    { unfold stream_of. unfold ledis.llen in Hend. lia. }
    destruct (lookup_lt_is_Some_2 _ _ Hin) as [x Hx].
    assert (Hok : (ledis.tick (db w)).1 = None).
    { rewrite tick_fst. unfold healthy in Hh.
      destruct (ledis.faults (db w)); [done|]. by inversion Hh. }
    set (w1 := with_db (ledis.tick (db w)).2 w).
    destruct (IH (pos + 1) w1 r wr) as (w' & Hd & Hl & Hs & Hh' & He).
    { lia. }
    { unfold w1. cbn. rewrite tick_llen. lia. }
    { unfold w1. cbn. by rewrite tick_llen. }
    { unfold w1, healthy. cbn. by apply healthy_tick. }
    { exact Hlock. }
    exists w'. split; [|repeat split].
    + change (drain (S (S n)) ?s) with
        (do ((evt, err), s') <- Next s ;
         match err with
         | Some e => ret (Some ([], e))
         | None =>
             do r <- drain (S n) s' ;
             match r with
             | Some (evts, e) => ret (Some (evt :: evts, e))
             | None => ret None
             end
         end).
      unfold bind at 1. cbn [Next]. unfold bind at 1.
      unfold ledisListStream_Next. cbn [l num].
      destruct (Z.leb_spec (pos + Z.of_nat (S n)) pos); [lia|].
      unfold bind at 1. rewrite engine_eq.
      rewrite (LIndex_ok _ _ _ x Hok Hnum Hx). cbn [fst snd]. fold w1.
      unfold ret at 1 2.
      change (2 ^ 31) with 2147483648 in Hlen.
      rewrite int32_small
        by (unfold is_int32; change (2 ^ 31) with 2147483648; lia).
      replace (pos + Z.of_nat (S n)) with (pos + 1 + Z.of_nat n) by lia.
      unfold bind at 1. rewrite Hd. unfold ret.
      do 3 f_equal.
      assert (Hs1 : stream_of w1 = stream_of w).
      { unfold stream_of, w1. cbn. apply tick_lget. }
      rewrite Hs1.
      replace (Z.to_nat (pos + 1)) with (S (Z.to_nat pos)) by lia.
      rewrite (drop_S _ _ _ Hx). reflexivity.
    + exact Hl.
    + rewrite Hs. unfold stream_of, w1. cbn. apply tick_lget.
    + exact Hh'.
    + rewrite He. reflexivity.
Qed.

(** Reading the whole of a non-empty stream: [Read 0 length] consumed to
    its end yields the stream and gives the shared hold back. *)
Lemma read_range_whole (w : world) :
  let len := ledis.llen (db w) (key (self w)) in
  0 < len -> len < 2 ^ 31 ->
  lock_free w -> healthy w ->
  exists w',
    read_range (S (length (stream_of w))) 0 len w
    = Done (Some (stream_of w, EOI), w')
    /\ lock_free w'
    /\ stream_of w' = stream_of w.
Proof.
  intros len Hpos Hlen Hfree Hh.
  assert (Hok : (ledis.tick (db w)).1 = None).
  { rewrite tick_fst. unfold healthy in Hh.
    destruct (ledis.faults (db w)); [done|]. by inversion Hh. }
  assert (Hw : writer (lock_of w) = false) by (by rewrite Hfree).
  set (w1 := with_db (ledis.tick (db w)).2
               (set_lock (mkRW (S (readers (lock_of w))) false) w)).
  assert (Hs1 : stream_of w1 = stream_of w).
  { unfold stream_of, w1. cbn. apply tick_lget. }
  assert (Hl1 : ledis.llen (db w1) (key (self w1)) = len).
  { unfold w1. cbn. apply tick_llen. }
  destruct (drain_ListStream (length (stream_of w)) 0 w1 0 false)
    as (w' & Hd & Hl & Hs & _ & _).
  { lia. }
  { rewrite Hl1. unfold len, ledis.llen, stream_of. lia. }
  { by rewrite Hl1. }
  { unfold w1, healthy. cbn. by apply healthy_tick. }
  { unfold w1. cbn. by rewrite Hfree. }
  exists w'. split; [|split].
  - unfold read_range.
    rewrite (bind_Done _ _ _ _ _ (Read_ok 0 len w ltac:(lia) Hpos
                                    ltac:(fold len; lia) Hlen Hw Hok)).
    fold w1.
    replace len with (0 + Z.of_nat (length (stream_of w)))
      by (unfold len, ledis.llen, stream_of; lia).
    rewrite Hd, Hs1. cbn [Z.to_nat drop].
    by rewrite take_ge.
  - exact Hl.
  - by rewrite Hs.
Qed.

(** C2: in the general case of [Del] (after normalization
    [0 < from < to < length]), with the lock free and the engine healthy,
    [Del] returns [true] with no error and leaves the old prefix
    [[0, from)] followed by the old tail [[to, length)]; [Read 0 length]
    on the result, consumed to its end, yields exactly that list. *)
Theorem Del_middle_range (afrom ato from to : Z) (w : world) :
  let len := ledis.llen (db w) (key (self w)) in
  let kept := take (Z.to_nat from) (stream_of w)
              ++ drop (Z.to_nat to) (stream_of w) in
  int64 afrom <> int64 ato ->
  lock_free w -> healthy w ->
  normalize (int64 afrom) (int64 ato) len = (from, to) ->
  0 < from -> from < to -> to < len -> len < 2 ^ 31 ->
  exists w',
    Del afrom ato w = Done ((true, None), w')
    /\ stream_of w' = kept
    /\ lock_free w'
    /\ exists w'',
         read_range (S (length kept)) 0 (Z.of_nat (length kept)) w'
         = Done (Some (kept, EOI), w'')
         /\ lock_free w''
         /\ stream_of w'' = kept.
Proof.
  intros len kept Hne Hfree Hh Hn Hfrom Hft Hto Hlen.
  set (k := key (self w)).
  set (d3 := ledis.lset (ledis.tick (ledis.tick (ledis.tick (db w)).2).2).2 k
               (take (Z.to_nat from) (ledis.lget (db w) k))).
  set (w' := set_lock (mkRW 0 false)
               (with_db (ledis.lset (ledis.tick d3).2 k kept)
                        (set_lock (mkRW 0 true) w))).
  assert (Hs' : stream_of w' = kept).
  { unfold stream_of, w'. cbn. fold k. apply lget_lset. }
  assert (Hh3 : Forall (fun f => f = None) (ledis.faults d3)).
  { unfold d3. rewrite faults_lset. by do 3 apply healthy_tick. }
  assert (Hh' : healthy w').
  { unfold healthy, w'. cbn. rewrite faults_lset. by apply healthy_tick. }
  assert (Hok4 : (ledis.tick d3).1 = None).
  { rewrite tick_fst. destruct (ledis.faults d3); [done|]. by inversion Hh3. }
  assert (HDel : Del afrom ato w = Done ((true, None), w')).
  { apply Del_unlocked; [done|done| |reflexivity].
    rewrite Del_locked_middle with (from := from) (to := to);
      try done; [|lia|by apply healthy_calls_ok].
    unfold bind at 1. rewrite engine_eq.
    cbn [db self with_db key set_lock]. fold k. fold d3.
    rewrite (RPush_ok _ _ _ Hok4). cbn [fst snd].
    unfold d3 at 2 4. rewrite lget_lset. reflexivity. }
  assert (Hkept : (0 < length kept)%nat).
  { unfold kept. rewrite length_app, length_take.
    unfold len, ledis.llen, stream_of in *. lia. }
  assert (Hkept' : (length kept <= length (stream_of w))%nat).
  { unfold kept. rewrite length_app, length_take, length_drop. lia. }
  destruct (read_range_whole w') as (w'' & Hr & Hl & Hs).
  { unfold ledis.llen. fold (stream_of w'). rewrite Hs'. lia. }
  { unfold ledis.llen. fold (stream_of w'). rewrite Hs'.
    unfold len, ledis.llen, stream_of in *. lia. }
  { reflexivity. }
  { exact Hh'. }
  exists w'. split; [exact HDel|]. split; [exact Hs'|].
  split; [reflexivity|].
  exists w''. rewrite Hs' in Hr, Hs. split; [|by split].
  rewrite <- Hr. unfold ledis.llen. fold (stream_of w'). by rewrite Hs'.
Qed.

Lemma Del_middle_range_witness :
  let w := handle_on [e0; e1; e2; e3; e4] [] in
  exists w',
    Del 1 4 w = Done ((true, None), w')
    /\ stream_of w' = [e0; e4]
    /\ lock_free w'
    /\ exists w'',
         read_range 3 0 2 w' = Done (Some ([e0; e4], EOI), w'')
         /\ lock_free w''
         /\ stream_of w'' = [e0; e4].
Proof.
  intros w.
  apply (Del_middle_range 1 4 1 4 w).
  - vm_compute. discriminate.
  - reflexivity.
  - constructor.
  - reflexivity.
  - lia.
  - lia.
  - vm_compute. reflexivity.
  - vm_compute. reflexivity.
Defined.

(** ** Failure of the re-append *)

Lemma tick_fst_lset d k l :
  (ledis.tick (ledis.lset d k l)).1 = (ledis.tick d).1.
Proof. by rewrite !tick_fst, faults_lset. Qed.

Lemma fourth_call_fails d e :
  ledis.faults d !! 3%nat = Some (Some e) ->
  (ledis.tick (ledis.tick (ledis.tick (ledis.tick d).2).2).2).1 = Some e.
Proof.
  rewrite tick_fst, !tick_faults.
  destruct (ledis.faults d) as [|f1 [|f2 [|f3 [|f4 fs]]]]; try done.
  simpl. by intros [= ->].
Qed.

(** C3, as the code has it: in the general case of [Del], when the length
    query, the reading of the tail and the trim succeed and the push of the
    saved tail fails with the engine error [e], [Del] returns [false] with
    that very error [e], writes one warning line to the log, and leaves the
    stream cut down to its old prefix [[0, from)]. *)
Theorem Del_reappend_failure_verbatim (afrom ato from to : Z) (e : error)
        (w : world) :
  let len := ledis.llen (db w) (key (self w)) in
  int64 afrom <> int64 ato ->
  lock_free w ->
  normalize (int64 afrom) (int64 ato) len = (from, to) ->
  0 < from -> from <= to -> to < len -> len < 2 ^ 31 ->
  calls_ok 3 (db w) ->
  ledis.faults (db w) !! 3%nat = Some (Some e) ->
  exists w',
    Del afrom ato w = Done ((false, Some e), w')
    /\ stream_of w' = take (Z.to_nat from) (stream_of w)
    /\ stderr w' = stderr w ++ [Del_warning]
    /\ lock_free w'.
Proof.
  intros len Hne Hfree Hn Hfrom Hft Hto Hlen Hok He.
  eexists. split.
  - apply Del_unlocked; [done|done| |].
    + rewrite Del_locked_middle with (from := from) (to := to); try done.
      unfold bind at 1. rewrite engine_eq. cbn [db self with_db key set_lock].
      rewrite (RPush_fail _ _ _ e)
        by (rewrite tick_fst_lset; by apply fourth_call_fails).
      cbn [fst snd]. unfold bind, log_Println, ret. reflexivity.
    + reflexivity.
  - unfold stream_of, Del_warning. cbn.
    rewrite tick_lget, lget_lset. cbn. repeat split.
Qed.

Lemma Del_reappend_failure_verbatim_witness :
  let e := EngineError "no space left on device" in
  let w := handle_on [e0; e1; e2; e3; e4] [None; None; None; Some e] in
  exists w',
    Del 1 4 w = Done ((false, Some e), w')
    /\ stream_of w' = take (Z.to_nat 1) (stream_of w)
    /\ stderr w' = stderr w ++ [Del_warning]
    /\ lock_free w'.
Proof.
  intros e w.
  apply (Del_reappend_failure_verbatim 1 4 1 4 e w).
  - vm_compute. discriminate.
  - reflexivity.
  - reflexivity.
  - lia.
  - lia.
  - vm_compute. reflexivity.
  - vm_compute. reflexivity.
  - repeat constructor.
  - reflexivity.
Defined.

(** C3, refuted as stated: what [Del] returns when the push of the saved
    tail fails after the trim (the tail is lost) is what it returns when
    the trim itself fails (nothing changed): [false] and the engine's own
    error, unchanged in both cases.  The returned value does not tell the
    two apart. *)
Lemma Del_reappend_failure_not_distinguished :
  let e := EngineError "no space left on device" in
  let five := [e0; e1; e2; e3; e4] in
  exists w_lost w_kept,
    Del 1 4 (handle_on five [None; None; None; Some e])
    = Done ((false, Some e), w_lost)
    /\ Del 1 4 (handle_on five [None; None; Some e])
       = Done ((false, Some e), w_kept)
    /\ stream_of w_lost = [e0]
    /\ stream_of w_kept = five.
Proof.
  intros e five. eexists _, _.
  split; [vm_compute; reflexivity|].
  split; [vm_compute; reflexivity|].
  split; reflexivity.
Qed.


(** ** Prefix deletion *)

(** What the prefix case of [Del] does: the trim starts at [to - 1], so
    the event just before the bound stays. *)
Lemma Del_prefix_trims_from_before_bound (afrom ato to : Z) (w : world) :
  let len := ledis.llen (db w) (key (self w)) in
  int64 afrom = 0 -> int64 ato <> 0 -> int64 ato <> -1 ->
  lock_free w ->
  normalize (int64 afrom) (int64 ato) len = (0, to) ->
  0 < to -> to < len -> len < 2 ^ 31 ->
  calls_ok 2 (db w) ->
  exists w',
    Del afrom ato w = Done ((true, None), w')
    /\ stream_of w' = drop (Z.to_nat (to - 1)) (stream_of w)
    /\ lock_free w'.
Proof.
  intros len Hf0 Ht0 Ht1 Hfree Hn Hto Htl Hlen Hok.
  apply calls_ok_S in Hok as [Hok1 Hok].
  apply calls_ok_S in Hok as [Hok2 _].
  change (2 ^ 31) with 2147483648 in Hlen.
  assert (Hi32 : forall z, 0 <= z <= len -> is_int32 z).
  { intros z Hz. unfold is_int32. change (2 ^ 31) with 2147483648. lia. }
  assert (Hi : forall z, 0 <= z <= len -> is_int z).
  { intros z Hz. by apply is_int32_is_int, Hi32. }
  eexists. split.
  - apply Del_unlocked; [congruence|done| |].
    + unfold Del_locked. rewrite Hf0 in *.
      destruct (Z.eqb_spec (int64 ato) (-1)); [done|]. cbn [Z.eqb andb].
      unfold bind at 1. rewrite engine_eq.
      cbn [db self with_db key set_lock].
      rewrite (LLen_ok _ _ Hok1). cbn [fst snd]. fold len. rewrite Hn.
      destruct (Z.eqb_spec to len); [lia|]. cbn [Z.eqb andb].
      unfold bind at 1. rewrite engine_eq.
      cbn [db self with_db key set_lock].
      rewrite int64_small by (apply Hi; lia).
      rewrite LTrim_keep;
        [|done|apply Hi32; lia|apply Hi32; lia
         |rewrite tick_llen; fold len; lia|lia].
      cbn [fst snd]. unfold ret. reflexivity.
    + reflexivity.
  - split; [|reflexivity].
    unfold stream_of. cbn. rewrite lget_lset, !tick_lget, !tick_llen.
    fold len. apply take_ge. rewrite length_drop.
    unfold len, ledis.llen in *. lia.
Qed.

(** C1 (the code departs from it): on the stream [[e0; e1; e2; e3; e4]],
    [Del 0 2] has a normalized bound [2] with [0 < 2 < 5].  It succeeds,
    and the stream it leaves is [[e1; e2; e3; e4]]: the old suffix from
    index [1], not the suffix [[e2; e3; e4]] from index [2].  [Del 0 1]
    succeeds and removes nothing. *)
Theorem Del_prefix_keeps_event_before_bound :
  let w := handle_on [e0; e1; e2; e3; e4] [] in
  (exists w',
     Del 0 2 w = Done ((true, None), w')
     /\ stream_of w' = [e1; e2; e3; e4]
     /\ stream_of w' <> drop 2 (stream_of w))
  /\ (exists w',
        Del 0 1 w = Done ((true, None), w')
        /\ stream_of w' = stream_of w)
  /\ (exists w',
        Del 0 (-3) w = Done ((true, None), w')
        /\ stream_of w' = [e2; e3; e4]
        /\ stream_of w' <> drop 3 (stream_of w)).
Proof.
  intros w. split; [|split].
  - eexists. split; [vm_compute; reflexivity|]. split; [reflexivity|].
    vm_compute. discriminate.
  - eexists. split; [vm_compute; reflexivity|]. reflexivity.
  - eexists. split; [vm_compute; reflexivity|]. split; [reflexivity|].
    vm_compute. discriminate.
Qed.

(** ** The table of live handles *)

Lemma add_refcnt_name d o : name (add_refcnt d o) = name o.
Proof. reflexivity. Qed.

Lemma table_inv_closed n b held m :
  table_inv n b held m -> closed_inv b held.
Proof.
  intros (_ & T2 & _ & _) p q op oq Hp Hq Hop Hoq Hname.
  destruct (T2 p Hp) as (o1 & Ho1 & Hm1).
  destruct (T2 q Hq) as (o2 & Ho2 & Hm2).
  simplify_eq. rewrite Hname in Hm1. congruence.
Qed.

Lemma backend_inv_one_handle n b held :
  backend_inv n b held -> one_handle_per_name b held.
Proof.
  unfold backend_inv, one_handle_per_name, live.
  destruct (data b) as [m|] eqn:Hd.
  - intros (T1 & T2 & _ & _) p q op oq Hp Hq Hop Hoq Hname.
    assert (Hmp : m !! name op = Some p).
    { destruct Hp as [Hp | (m' & nm & Hm' & Hnm)].
      - destruct (T2 p Hp) as (o & Ho & Hm). by simplify_eq.
      - simplify_eq. destruct (T1 nm p Hnm) as (o & Ho & Hn & _).
        by simplify_eq. }
    assert (Hmq : m !! name oq = Some q).
    { destruct Hq as [Hq | (m' & nm & Hm' & Hnm)].
      - destruct (T2 q Hq) as (o & Ho & Hm). by simplify_eq.
      - simplify_eq. destruct (T1 nm q Hnm) as (o & Ho & Hn & _).
        by simplify_eq. }
    rewrite Hname in Hmp. congruence.
  - intros Hc p q op oq Hp Hq Hop Hoq Hname.
    destruct Hp as [Hp | (m' & nm & Hm' & _)]; [|done].
    destruct Hq as [Hq | (m' & nm & Hm' & _)]; [|done].
    by eapply Hc.
Qed.

Lemma GetStream_cached nm b m v :
  data b = Some m -> m !! nm = Some v ->
  GetStream nm b
  = Done ((v, None),
          mkBackend (dirname b) (Some m) (alter (add_refcnt 1) v (heap b))).
Proof. unfold GetStream. by intros -> ->. Qed.

Lemma GetStream_absent nm b m :
  data b = Some m -> m !! nm = None ->
  GetStream nm b
  = Done ((length (heap b), None),
          mkBackend (dirname b) (Some (<[nm := length (heap b)]> m))
                    (heap b ++ [mkObj nm nm (mkRW 0 false) (int (0 + 1))])).
Proof.
  unfold GetStream. intros -> ->. do 3 f_equal.
  rewrite alter_app_r_alt by lia. by rewrite Nat.sub_diag.
Qed.

Lemma GetStream_closed nm b :
  data b = None -> GetStream nm b = Fatal "assignment to entry in nil map".
Proof. unfold GetStream. by intros ->. Qed.

Lemma release_found s b o :
  heap b !! s = Some o ->
  release s b
  = mkBackend (dirname b)
              (if int (refcnt o + -1) =? 0
               then delete (name o) <$> data b else data b)
              (alter (add_refcnt (-1)) s (heap b)).
Proof.
  intros Ho. unfold release. rewrite list_lookup_alter_eq, Ho. cbn.
  by destruct (int (refcnt o + -1) =? 0).
Qed.

Lemma release_missing s b : heap b !! s = None -> release s b = b.
Proof.
  intros Ho. unfold release. by rewrite list_lookup_alter_eq, Ho.
Qed.

Lemma acquire_eq p held : acquire p held p = S (held p).
Proof. unfold acquire. by rewrite decide_True. Qed.

Lemma acquire_ne p q held : q <> p -> acquire p held q = held q.
Proof. unfold acquire. intros. by rewrite decide_False. Qed.

Lemma give_back_eq p held : give_back p held p = pred (held p).
Proof. unfold give_back. by rewrite decide_True. Qed.

Lemma give_back_ne p q held : q <> p -> give_back p held q = held q.
Proof. unfold give_back. intros. by rewrite decide_False. Qed.

Lemma give_back_le p q held : (give_back p held q <= held q)%nat.
Proof. unfold give_back. case_decide; lia. Qed.

Lemma int_of_count (c : nat) (n : nat) :
  (c <= S n)%nat -> Z.of_nat (S n) < 2 ^ 63 -> int (Z.of_nat c) = Z.of_nat c.
Proof.
  intros Hc Hn. apply int_small. unfold is_int.
  change (2 ^ 63) with 9223372036854775808 in *. lia.
Qed.

Lemma table_inv_GetStream_cached n b held m nm v :
  data b = Some m -> m !! nm = Some v ->
  Z.of_nat (S n) < 2 ^ 63 ->
  table_inv n b held m ->
  table_inv (S n)
    (mkBackend (dirname b) (Some m) (alter (add_refcnt 1) v (heap b)))
    (acquire v held) m.
Proof.
  intros Hd Hv Hn (T1 & T2 & T3 & T4). unfold table_inv. cbn [heap].
  destruct (T1 nm v Hv) as (ov & Hov & Hnv & Hhv).
  split; [|split; [|split]].
  - intros nm' p Hp. destruct (T1 nm' p Hp) as (o & Ho & Hno & Hh).
    destruct (decide (p = v)) as [->|Hne].
    + exists (add_refcnt 1 o). rewrite list_lookup_alter_eq, Ho.
      rewrite acquire_eq. repeat split; [done|lia].
    + exists o. rewrite list_lookup_alter_ne by done.
      rewrite acquire_ne by done. done.
  - intros p Hp. destruct (decide (p = v)) as [->|Hne].
    + exists (add_refcnt 1 ov). rewrite list_lookup_alter_eq, Hov.
      split; [done|]. cbn. by rewrite Hnv.
    + rewrite acquire_ne in Hp by done.
      destruct (T2 p Hp) as (o & Ho & Hm). exists o.
      by rewrite list_lookup_alter_ne.
  - intros p o Ho. destruct (decide (p = v)) as [->|Hne].
    + rewrite list_lookup_alter_eq, Hov in Ho. cbn in Ho. simplify_eq.
      cbn. rewrite (T3 v ov Hov), acquire_eq.
      replace (Z.of_nat (held v) + 1) with (Z.of_nat (S (held v))) by lia.
      apply (int_of_count _ n); [|done]. specialize (T4 v). lia.
    + rewrite list_lookup_alter_ne in Ho by done.
      rewrite acquire_ne by done. by apply T3.
  - intros p. unfold acquire. specialize (T4 p). case_decide; lia.
Qed.

Lemma table_inv_GetStream_absent n b held m nm :
  data b = Some m -> m !! nm = None ->
  table_inv n b held m ->
  table_inv (S n)
    (mkBackend (dirname b) (Some (<[nm := length (heap b)]> m))
               (heap b ++ [mkObj nm nm (mkRW 0 false) (int (0 + 1))]))
    (acquire (length (heap b)) held) (<[nm := length (heap b)]> m).
Proof.
  intros Hd Hnm (T1 & T2 & T3 & T4). unfold table_inv. cbn [heap].
  set (v := length (heap b)).
  assert (Hfresh : held v = O).
  { destruct (held v) eqn:Hv; [done|].
    destruct (T2 v ltac:(lia)) as (o & Ho & _).
    apply lookup_lt_Some in Ho. unfold v in Ho. lia. }
  assert (Hnew : (heap b ++ [mkObj nm nm (mkRW 0 false) (int (0 + 1))]) !! v
                 = Some (mkObj nm nm (mkRW 0 false) (int (0 + 1)))).
  { unfold v. by rewrite list_lookup_middle. }
  split; [|split; [|split]].
  - intros nm' p Hp. apply lookup_insert_Some in Hp as [[<- <-]|[Hne Hp]].
    + eexists. split; [exact Hnew|]. rewrite acquire_eq. split; [done|lia].
    + destruct (T1 nm' p Hp) as (o & Ho & Hno & Hh). exists o.
      split; [by apply lookup_app_l_Some|]. split; [done|].
      unfold acquire. case_decide; lia.
  - intros p Hp. destruct (decide (p = v)) as [->|Hne].
    + eexists. split; [exact Hnew|]. cbn. apply lookup_insert_eq.
    + rewrite acquire_ne in Hp by done.
      destruct (T2 p Hp) as (o & Ho & Hm). exists o.
      split; [by apply lookup_app_l_Some|].
      rewrite lookup_insert_ne; [done|]. intros Heq. congruence.
  - intros p o Ho. destruct (decide (p = v)) as [->|Hne].
    + rewrite Hnew in Ho. simplify_eq. cbn.
      rewrite acquire_eq, Hfresh. reflexivity.
    + rewrite acquire_ne by done. apply T3.
      apply lookup_app_Some in Ho as [Ho|[Hge Ho]]; [done|].
      apply lookup_lt_Some in Ho. cbn in Ho. fold v in Hge, Ho. lia.
  - intros p. unfold acquire. specialize (T4 p). case_decide; lia.
Qed.

Lemma backend_inv_GetStream n b held nm p b' :
  Z.of_nat (S n) < 2 ^ 63 ->
  backend_inv n b held ->
  GetStream nm b = Done ((p, None), b') ->
  backend_inv (S n) b' (acquire p held).
Proof.
  unfold backend_inv. intros Hn Hinv Hget.
  destruct (data b) as [m|] eqn:Hd.
  - destruct (m !! nm) as [v|] eqn:Hv.
    + rewrite (GetStream_cached _ _ _ _ Hd Hv) in Hget. simplify_eq.
      cbn [data]. by eapply table_inv_GetStream_cached.
    + rewrite (GetStream_absent _ _ _ Hd Hv) in Hget. simplify_eq.
      cbn [data]. by eapply table_inv_GetStream_absent.
  - by rewrite (GetStream_closed _ _ Hd) in Hget.
Qed.

Lemma table_inv_release n b held m p :
  data b = Some m ->
  Z.of_nat (S n) < 2 ^ 63 ->
  (0 < held p)%nat ->
  table_inv n b held m ->
  backend_inv (S n) (release p b) (give_back p held).
Proof.
  intros Hd Hn Hp (T1 & T2 & T3 & T4).
  destruct (T2 p Hp) as (o & Ho & Hmo).
  pose proof (T3 p o Ho) as Hrc.
  assert (Hdec : int (refcnt o + -1) = Z.of_nat (pred (held p))).
  { rewrite Hrc.
    replace (Z.of_nat (held p) + -1) with (Z.of_nat (pred (held p))) by lia.
    apply (int_of_count _ n); [|done]. specialize (T4 p). lia. }
  rewrite (release_found _ _ _ Ho), Hdec, Hd.
  unfold backend_inv, table_inv.
  cbn [data heap fmap option_fmap option_map].
  destruct (Z.eqb_spec (Z.of_nat (pred (held p))) 0) as [Hz|Hnz];
    cbn [data heap].
  - (* the last hold: the entry goes *)
    split; [|split; [|split]]; cbn [heap].
    + intros nm' q Hq. apply lookup_delete_Some in Hq as [Hne Hq].
      destruct (T1 nm' q Hq) as (oq & Hoq & Hnq & Hhq).
      assert (q <> p) by (intros ->; simplify_eq; done).
      exists oq. rewrite list_lookup_alter_ne by done.
      by rewrite give_back_ne.
    + intros q Hq.
      assert (q <> p) by (intros ->; rewrite give_back_eq in Hq; lia).
      rewrite give_back_ne in Hq by done.
      destruct (T2 q Hq) as (oq & Hoq & Hmq). exists oq.
      rewrite list_lookup_alter_ne by done. split; [done|].
      rewrite lookup_delete_ne; [done|]. intros Heq.
      rewrite Heq in Hmo. congruence.
    + intros q oq Hoq. destruct (decide (q = p)) as [->|Hne].
      * rewrite list_lookup_alter_eq, Ho in Hoq. cbn in Hoq. simplify_eq.
        cbn. by rewrite Hdec, give_back_eq.
      * rewrite list_lookup_alter_ne in Hoq by done.
        rewrite give_back_ne by done. by apply T3.
    + intros q. pose proof (give_back_le p q held). specialize (T4 q). lia.
  - (* other holds remain: the entry stays *)
    split; [|split; [|split]]; cbn [heap].
    + intros nm' q Hq. destruct (T1 nm' q Hq) as (oq & Hoq & Hnq & Hhq).
      destruct (decide (q = p)) as [->|Hne].
      * exists (add_refcnt (-1) oq). rewrite list_lookup_alter_eq, Hoq.
        rewrite give_back_eq. repeat split; [done|lia].
      * exists oq. rewrite list_lookup_alter_ne by done.
        by rewrite give_back_ne.
    + intros q Hq. destruct (decide (q = p)) as [->|Hne].
      * exists (add_refcnt (-1) o). rewrite list_lookup_alter_eq, Ho.
        done.
      * rewrite give_back_ne in Hq by done.
        destruct (T2 q Hq) as (oq & Hoq & Hmq). exists oq.
        by rewrite list_lookup_alter_ne.
    + intros q oq Hoq. destruct (decide (q = p)) as [->|Hne].
      * rewrite list_lookup_alter_eq, Ho in Hoq. cbn in Hoq. simplify_eq.
        cbn. by rewrite Hdec, give_back_eq.
      * rewrite list_lookup_alter_ne in Hoq by done.
        rewrite give_back_ne by done. by apply T3.
    + intros q. pose proof (give_back_le p q held). specialize (T4 q). lia.
Qed.

Lemma release_heap_name s b q oq :
  heap (release s b) !! q = Some oq ->
  exists o, heap b !! q = Some o /\ name o = name oq.
Proof.
  destruct (heap b !! s) as [o|] eqn:Ho.
  - rewrite (release_found _ _ _ Ho). cbn [heap]. intros Hq.
    destruct (decide (q = s)) as [->|Hne].
    + rewrite list_lookup_alter_eq, Ho in Hq. cbn in Hq. simplify_eq.
      by exists o.
    + rewrite list_lookup_alter_ne in Hq by done. by exists oq.
  - rewrite (release_missing _ _ Ho). intros Hq. by exists oq.
Qed.

Lemma release_closed s b : data b = None -> data (release s b) = None.
Proof.
  intros Hd. destruct (heap b !! s) as [o|] eqn:Ho.
  - rewrite (release_found _ _ _ Ho), Hd. cbn. by destruct (_ =? _).
  - by rewrite (release_missing _ _ Ho).
Qed.

Lemma closed_inv_release b held p :
  closed_inv b held -> closed_inv (release p b) (give_back p held).
Proof.
  intros Hc q1 q2 o1 o2 H1 H2 Ho1 Ho2 Hname.
  destruct (release_heap_name _ _ _ _ Ho1) as (o1' & Ho1' & Hn1).
  destruct (release_heap_name _ _ _ _ Ho2) as (o2' & Ho2' & Hn2).
  pose proof (give_back_le p q1 held). pose proof (give_back_le p q2 held).
  apply (Hc q1 q2 o1' o2'); [lia|lia|done|done|congruence].
Qed.

Lemma backend_inv_release n b held p :
  Z.of_nat (S n) < 2 ^ 63 ->
  (0 < held p)%nat ->
  backend_inv n b held ->
  backend_inv (S n) (release p b) (give_back p held).
Proof.
  intros Hn Hp Hinv. unfold backend_inv in Hinv.
  destruct (data b) as [m|] eqn:Hd.
  - by eapply table_inv_release.
  - unfold backend_inv. rewrite (release_closed _ _ Hd).
    by apply closed_inv_release.
Qed.

Lemma backend_inv_Close n b held :
  backend_inv n b held ->
  backend_inv (S n) (ledisBackend_Close b).1 held.
Proof.
  unfold backend_inv. cbn. destruct (data b) as [m|].
  - intros Hinv. by eapply table_inv_closed.
  - done.
Qed.

Lemma reachable_inv n b held :
  reachable n b held -> Z.of_nat n < 2 ^ 63 -> backend_inv n b held.
Proof.
  induction 1 as [dir|n b held nm p b' Hr IH Hget|n b held p Hr IH Hp
                  |n b held Hr IH]; intros Hn.
  - unfold backend_inv, table_inv. cbn. split; [|split; [|split]].
    + intros nm p Hp. by rewrite lookup_empty in Hp.
    + intros p Hp. lia.
    + intros p o Ho. by rewrite lookup_nil in Ho.
    + intros p. lia.
  - eapply backend_inv_GetStream; [done| |done]. apply IH. lia.
  - apply backend_inv_release; [done|done|]. apply IH. lia.
  - apply backend_inv_Close. apply IH. lia.
Qed.

(** C8: in every state a backend reaches (in fewer than [2^63] calls, from
    callers that release only what they hold), two live handles of one
    stream name are one object.  In such a state [GetStream] on a name in
    the table returns the table's pointer and adds one to that object's
    count, leaving the table as it is; on a name not in the table it
    allocates a fresh object with count one and enters it; and [release]
    removes the table entry of the object's name exactly when the count,
    once decremented, is zero. *)
Theorem one_handle_per_stream_name (n : nat) (b : ledisBackend)
        (held : holdings) :
  reachable n b held ->
  Z.of_nat n < 2 ^ 63 ->
  one_handle_per_name b held
  /\ (forall nm m v,
        data b = Some m -> m !! nm = Some v ->
        is_Some (heap b !! v)
        /\ GetStream nm b
           = Done ((v, None),
                   mkBackend (dirname b) (Some m)
                             (alter (add_refcnt 1) v (heap b))))
  /\ (forall nm m,
        data b = Some m -> m !! nm = None ->
        GetStream nm b
        = Done ((length (heap b), None),
                mkBackend (dirname b) (Some (<[nm := length (heap b)]> m))
                          (heap b ++ [mkObj nm nm (mkRW 0 false) 1])))
  /\ (forall p o,
        heap b !! p = Some o ->
        heap (release p b) = alter (add_refcnt (-1)) p (heap b)
        /\ data (release p b)
           = if int (refcnt o + -1) =? 0
             then delete (name o) <$> data b
             else data b).
Proof.
  intros Hr Hn.
  pose proof (reachable_inv _ _ _ Hr Hn) as Hinv.
  split; [by eapply backend_inv_one_handle|].
  split; [|split].
  - intros nm m v Hd Hv. split; [|by apply GetStream_cached].
    unfold backend_inv in Hinv. rewrite Hd in Hinv.
    destruct Hinv as (T1 & _). destruct (T1 nm v Hv) as (o & Ho & _).
    by exists o.
  - intros nm m Hd Hnm. by apply GetStream_absent.
  - intros p o Ho. by rewrite (release_found _ _ _ Ho).
Qed.

Lemma one_handle_per_stream_name_witness :
  let b0 := NewLedis "/var/db" in
  let b1 := after_GetStream "a" b0 in
  let b2 := after_GetStream "a" b1 in
  let b3 := after_GetStream "b" b2 in
  let b4 := release 0 b3 in
  let held :=
    give_back 0 (acquire 1 (acquire 0 (acquire 0 (fun _ => O)))) in
  one_handle_per_name b4 held
  /\ (forall nm m v,
        data b4 = Some m -> m !! nm = Some v ->
        is_Some (heap b4 !! v)
        /\ GetStream nm b4
           = Done ((v, None),
                   mkBackend (dirname b4) (Some m)
                             (alter (add_refcnt 1) v (heap b4))))
  /\ (forall nm m,
        data b4 = Some m -> m !! nm = None ->
        GetStream nm b4
        = Done ((length (heap b4), None),
                mkBackend (dirname b4) (Some (<[nm := length (heap b4)]> m))
                          (heap b4 ++ [mkObj nm nm (mkRW 0 false) 1])))
  /\ (forall p o,
        heap b4 !! p = Some o ->
        heap (release p b4) = alter (add_refcnt (-1)) p (heap b4)
        /\ data (release p b4)
           = if int (refcnt o + -1) =? 0
             then delete (name o) <$> data b4
             else data b4).
Proof.
  intros b0 b1 b2 b3 b4 held.
  apply (one_handle_per_stream_name 4 b4 held); [|lia].
  apply reach_release; [|unfold acquire; simpl; lia].
  apply (reach_GetStream 2 b2 _ "b" 1%nat b3); [|vm_compute; reflexivity].
  apply (reach_GetStream 1 b1 _ "a" 0%nat b2); [|vm_compute; reflexivity].
  apply (reach_GetStream 0 b0 _ "a" 0%nat b1); [|vm_compute; reflexivity].
  apply reach_new.
Defined.

(** * Further properties of the handle calls *)

(** ** Del and the exclusive lock *)

Lemma engine_self {A} (f : string -> ledis.DB -> A * ledis.DB) w a w' :
  engine f w = Done (a, w') -> self w' = self w /\ stderr w' = stderr w.
Proof. rewrite engine_eq. intros [= <- <-]. by split. Qed.

(** The locked part of [Del] always returns, hands the handle back as it
    got it, and never pairs an error with [true]. *)
Lemma Del_locked_returns from to w :
  exists r w',
    Del_locked from to w = Done (r, w')
    /\ self w' = self w
    /\ (is_Some r.2 -> r.1 = false).
Proof.
  unfold Del_locked.
  repeat (first [ rewrite engine_eq
                | progress cbn [fst snd]
                | case_match
                | progress unfold bind, ret, log_Println ];
          simplify_eq);
    (eexists _, _; split; [reflexivity|]; split; [reflexivity|];
     cbn [fst snd]; intros [err0 He];
     first [ by simplify_eq
           | rewrite He; by apply bool_decide_eq_false_2 ]).
Qed.

(** X1: [Del] holds the exclusive lock only while it runs.  Called with
    the lock free it always returns, with the lock free again, whatever
    the range and whatever the engine does, and it never reports an error
    together with [true].  Called with a range to delete while any hold is
    out, shared or exclusive, it does not return. *)
Theorem Del_gives_lock_back (afrom ato : Z) (w : world) :
  (lock_free w ->
   exists r w',
     Del afrom ato w = Done (r, w')
     /\ lock_free w'
     /\ (is_Some r.2 -> r.1 = false))
  /\ (~ lock_free w -> int64 afrom <> int64 ato ->
      Del afrom ato w = Blocked).
Proof.
  split.
  - intros Hfree. unfold Del.
    destruct (Z.eqb_spec (int64 afrom) (int64 ato)).
    + exists (true, None), w. split; [reflexivity|]. split; [done|].
      cbn. by intros [? ?].
    + rewrite (bind_Done _ _ _ _ _ (Lock_ok w Hfree)).
      destruct (Del_locked_returns (int64 afrom) (int64 ato)
                  (set_lock (mkRW 0 true) w)) as (r & w1 & Hbody & Hself & Hr).
      rewrite (bind_Done _ _ _ _ _ Hbody).
      assert (Hlock : lock_of w1 = mkRW 0 true).
      { unfold lock_of. by rewrite Hself. }
      rewrite (bind_Done _ _ _ _ _ (Unlock_ok w1 Hlock)).
      exists r, (set_lock (mkRW 0 false) w1). by repeat split.
  - intros Hheld Hne. unfold Del.
    destruct (Z.eqb_spec (int64 afrom) (int64 ato)); [done|].
    unfold bind, Lock, lock_free, lock_of in *.
    destruct (delLock (self w)) as [[|r] [|]]; try done.
Qed.

Lemma Del_gives_lock_back_witness :
  let w := handle_on [e0; e1; e2] [Some (EngineError "i/o error")] in
  (exists r w',
     Del 1 2 w = Done (r, w')
     /\ lock_free w'
     /\ (is_Some r.2 -> r.1 = false))
  /\ Del 1 2 (set_lock (mkRW 1 false) w) = Blocked.
Proof.
  intros w.
  destruct (Del_gives_lock_back 1 2 w) as [Hfree _].
  destruct (Del_gives_lock_back 1 2 (set_lock (mkRW 1 false) w))
    as [_ Hheld].
  split.
  - apply Hfree. reflexivity.
  - apply Hheld; [|vm_compute]; discriminate.
Defined.

(** ** Add *)

Lemma RUnlock_ok w r wr :
  lock_of w = mkRW (S r) wr ->
  RUnlock w = Done (tt, set_lock (mkRW r wr) w).
Proof. unfold lock_of, RUnlock. by intros ->. Qed.

Lemma set_lock_same w : set_lock (lock_of w) w = w.
Proof. by destruct w as [d [nm k lk rc] lg]. Qed.

(** [Add] of a byte slice with no exclusive hold out: one engine call
    between taking and giving back a shared hold. *)
Lemma Add_bytes bs w :
  writer (lock_of w) = false ->
  Add (VBytes bs) w
  = Done ((ledis.RPush (key (self w)) [bs] (db w)).1.2,
          with_db (ledis.RPush (key (self w)) [bs] (db w)).2 w).
Proof.
  intros Hw. unfold Add.
  rewrite (bind_Done _ _ _ _ _ (RLock_ok w Hw)).
  unfold bind at 1. rewrite engine_eq. cbn [db self key set_lock].
  destruct (ledis.RPush _ _ _) as [[cnt err] d']. cbn [fst snd].
  erewrite bind_Done; [|by apply RUnlock_ok]. unfold ret.
  do 2 f_equal. destruct w as [d [nm k [r wr] rc] lg]. cbn in *. by subst.
Qed.

(** X2: [Add] of a byte slice, with no exclusive hold out and the engine
    call succeeding, returns no error, makes the event the new last
    element of the stream and leaves the lock and the log as they were. *)
Theorem Add_appends (bs : list byte) (w : world) :
  writer (lock_of w) = false ->
  next_ok w ->
  exists w',
    Add (VBytes bs) w = Done (None, w')
    /\ stream_of w' = stream_of w ++ [bs]
    /\ lock_of w' = lock_of w
    /\ stderr w' = stderr w.
Proof.
  intros Hw Hok. rewrite (Add_bytes _ _ Hw), (RPush_ok _ _ _ Hok).
  eexists. split; [reflexivity|]. unfold stream_of. cbn.
  by rewrite lget_lset.
Qed.

Lemma Add_appends_witness :
  let w := handle_on [e0; e1] [] in
  exists w',
    Add (VBytes e2) w = Done (None, w')
    /\ stream_of w' = stream_of w ++ [e2]
    /\ lock_of w' = lock_of w
    /\ stderr w' = stderr w.
Proof.
  intros w. apply (Add_appends e2 w); reflexivity.
Defined.

(** X3: the ways [Add] fails.  A value that is not a byte slice is
    refused before the lock or the engine is touched, even while a [Del]
    holds the lock.  An engine failure comes back as the engine's own
    error, with the stream unchanged and the shared hold given back.
    With the exclusive hold out, [Add] of a byte slice does not return. *)
Theorem Add_failures (bs : list byte) (shown : string) (w : world) :
  Add (VOther shown) w
  = Done (Some (errors_New
                  ("ledisStreamObj.Add: Expected []byte, got " +:+ shown)),
          w)
  /\ (forall e,
        writer (lock_of w) = false ->
        (ledis.tick (db w)).1 = Some e ->
        exists w',
          Add (VBytes bs) w = Done (Some e, w')
          /\ stream_of w' = stream_of w
          /\ lock_of w' = lock_of w)
  /\ (writer (lock_of w) = true -> Add (VBytes bs) w = Blocked).
Proof.
  split; [reflexivity|]. split.
  - intros e Hw Hf. rewrite (Add_bytes _ _ Hw), (RPush_fail _ _ _ e Hf).
    eexists. split; [reflexivity|]. unfold stream_of. cbn.
    by rewrite tick_lget.
  - intros Hw. unfold Add, bind, RLock. fold (lock_of w). by rewrite Hw.
Qed.

Lemma Add_failures_witness :
  let w := handle_on [e0; e1] [Some (EngineError "disk full")] in
  (exists w',
     Add (VBytes e2) w = Done (Some (EngineError "disk full"), w')
     /\ stream_of w' = stream_of w
     /\ lock_of w' = lock_of w)
  /\ Add (VBytes e2) (set_lock (mkRW 0 true) w) = Blocked.
Proof.
  intros w.
  destruct (Add_failures e2 "42" w) as (_ & Hfail & _).
  destruct (Add_failures e2 "42" (set_lock (mkRW 0 true) w)) as (_ & _ & Hb).
  split.
  - apply Hfail; reflexivity.
  - apply Hb. reflexivity.
Defined.

Lemma Len_ok w :
  next_ok w ->
  ledis.llen (db w) (key (self w)) < 2 ^ 64 ->
  Len w = Done ((ledis.llen (db w) (key (self w)), None),
                with_db (ledis.tick (db w)).2 w).
Proof.
  intros Hok Hlen. unfold Len, bind. rewrite engine_eq, (LLen_ok _ _ Hok).
  cbn [fst snd]. unfold ret, uint. rewrite Z.mod_small; [done|].
  unfold ledis.llen in *. lia.
Qed.

Lemma healthy_next_ok w : healthy w -> next_ok w.
Proof.
  unfold healthy, next_ok. rewrite tick_fst.
  destruct (ledis.faults (db w)); [done|]. by inversion 1.
Qed.

Lemma Add_each_appends (evts : list (list byte)) :
  forall w,
    writer (lock_of w) = false ->
    healthy w ->
    exists w',
      Add_each (VBytes <$> evts) w = Done (None, w')
      /\ stream_of w' = stream_of w ++ evts
      /\ lock_of w' = lock_of w
      /\ healthy w'
      /\ self w' = self w.
Proof.
  induction evts as [|bs evts IH]; intros w Hw Hh.
  - exists w. cbn. unfold ret. by rewrite app_nil_r.
  - rewrite fmap_cons. cbn [Add_each]. unfold bind at 1.
    rewrite (Add_bytes _ _ Hw), (RPush_ok _ _ _ (healthy_next_ok _ Hh)).
    cbn [fst snd].
    set (w1 := with_db _ w).
    destruct (IH w1) as (w' & Hadd & Hs & Hl & Hh' & Hself).
    { exact Hw. }
    { unfold w1, healthy. cbn. rewrite faults_lset. by apply healthy_tick. }
    exists w'.
    split; [exact Hadd|]. split; [|by repeat split].
    rewrite Hs. unfold stream_of, w1. cbn. rewrite lget_lset.
    by rewrite <- app_assoc.
Qed.

(** X4: a caller that adds [N] byte slices one after the other, with no
    exclusive hold out and a healthy engine, sees every [Add] succeed; the
    stream is then the old stream followed by the [N] events in order, the
    lock is as before, and [Len] reports the old length plus [N]. *)
Theorem Add_each_then_Len (evts : list (list byte)) (w : world) :
  writer (lock_of w) = false ->
  healthy w ->
  Z.of_nat (length (stream_of w) + length evts) < 2 ^ 64 ->
  exists w' w'',
    Add_each (VBytes <$> evts) w = Done (None, w')
    /\ stream_of w' = stream_of w ++ evts
    /\ lock_of w' = lock_of w
    /\ Len w'
       = Done ((Z.of_nat (length (stream_of w)) + Z.of_nat (length evts),
                None), w'')
    /\ stream_of w'' = stream_of w'.
Proof.
  intros Hw Hh Hlen.
  destruct (Add_each_appends evts w Hw Hh) as (w' & Hadd & Hs & Hl & Hh' & _).
  assert (Hll : ledis.llen (db w') (key (self w'))
                = Z.of_nat (length (stream_of w)) + Z.of_nat (length evts)).
  { unfold ledis.llen. fold (stream_of w'). rewrite Hs, length_app.
    unfold Event. lia. }
  exists w', (with_db (ledis.tick (db w')).2 w').
  split; [exact Hadd|]. split; [exact Hs|]. split; [exact Hl|]. split.
  - rewrite Len_ok; [by rewrite Hll|by apply healthy_next_ok|].
    rewrite Hll. lia.
  - unfold stream_of. cbn. apply tick_lget.
Qed.

Lemma Add_each_then_Len_witness :
  let w := handle_on [e0; e1] [] in
  exists w' w'',
    Add_each (VBytes <$> [e2; e3; e4]) w = Done (None, w')
    /\ stream_of w' = stream_of w ++ [e2; e3; e4]
    /\ lock_of w' = lock_of w
    /\ Len w'
       = Done ((Z.of_nat (length (stream_of w))
                + Z.of_nat (length [e2; e3; e4]), None), w'')
    /\ stream_of w'' = stream_of w'.
Proof.
  intros w. apply (Add_each_then_Len [e2; e3; e4] w).
  - reflexivity.
  - constructor.
  - vm_compute. reflexivity.
Defined.

(** ** Read and its iterator *)

Lemma lock_of_no_writer w :
  writer (lock_of w) = false -> lock_of w = mkRW (readers (lock_of w)) false.
Proof. destruct (lock_of w) as [r wr]. cbn. by intros ->. Qed.

(** [Read] on a range that is valid once normalized: the iterator over
    the normalized bounds, with one more shared hold on the lock. *)
Lemma Read_iterator afrom to w f t :
  let len := ledis.llen (db w) (key (self w)) in
  int afrom <> to ->
  writer (lock_of w) = false ->
  next_ok w ->
  normalize (int afrom) to (int len) = (f, t) ->
  0 <= f -> f < t -> t <= len -> len < 2 ^ 31 ->
  Read afrom to w
  = Done ((Some (ListStream (mkIter f t)), None),
          with_db (ledis.tick (db w)).2
            (set_lock (mkRW (S (readers (lock_of w))) false) w)).
Proof.
  intros len Hne Hw Hok Hn Hf Hft Ht Hlen.
  change (2 ^ 31) with 2147483648 in Hlen.
  assert (Hi32 : forall z, 0 <= z <= len -> is_int32 z).
  { intros z Hz. unfold is_int32. change (2 ^ 31) with 2147483648. lia. }
  assert (Hi : forall z, 0 <= z <= len -> is_int z).
  { intros z Hz. by apply is_int32_is_int, Hi32. }
  unfold Read.
  destruct (Z.eqb_spec (int afrom) to); [done|].
  rewrite (bind_Done _ _ _ _ _ (RLock_ok w Hw)).
  unfold bind. rewrite engine_eq. cbn [db self with_db key set_lock].
  rewrite (LLen_ok _ _ Hok). cbn [fst snd]. fold len. rewrite Hn.
  rewrite (int_small len) by (apply Hi; lia).
  rewrite !int_small by (apply Hi; lia).
  destruct (Z.eqb_spec f t); [lia|].
  unfold checkRange.
  destruct (Z.leb_spec 0 f); [|lia].
  destruct (Z.leb_spec f t); [|lia].
  destruct (Z.leb_spec t len); [|lia]. cbn [andb].
  rewrite !int32_small by (apply Hi32; lia).
  reflexivity.
Qed.

(** One read, consumed to its end. *)
Lemma read_range_slice afrom to w f t :
  let len := ledis.llen (db w) (key (self w)) in
  int afrom <> to ->
  writer (lock_of w) = false ->
  healthy w ->
  normalize (int afrom) to (int len) = (f, t) ->
  0 <= f -> f < t -> t <= len -> len < 2 ^ 31 ->
  exists w',
    read_range (S (Z.to_nat (t - f))) afrom to w
    = Done (Some (take (Z.to_nat (t - f))
                       (drop (Z.to_nat f) (stream_of w)), EOI), w')
    /\ lock_of w' = lock_of w
    /\ stream_of w' = stream_of w
    /\ healthy w'.
Proof.
  intros len Hne Hw Hh Hn Hf Hft Ht Hlen.
  pose proof (healthy_next_ok _ Hh) as Hok.
  set (w1 := with_db (ledis.tick (db w)).2
               (set_lock (mkRW (S (readers (lock_of w))) false) w)).
  assert (Hs1 : stream_of w1 = stream_of w).
  { unfold stream_of, w1. cbn. apply tick_lget. }
  assert (Hl1 : ledis.llen (db w1) (key (self w1)) = len).
  { unfold w1. cbn. apply tick_llen. }
  destruct (drain_ListStream (Z.to_nat (t - f)) f w1
              (readers (lock_of w)) false)
    as (w' & Hd & Hl & Hs & Hh' & _).
  { lia. }
  { rewrite Hl1. lia. }
  { by rewrite Hl1. }
  { unfold w1, healthy. cbn. by apply healthy_tick. }
  { reflexivity. }
  exists w'. split; [|split; [|split]].
  - unfold read_range.
    rewrite (bind_Done _ _ _ _ _
               (Read_iterator afrom to w f t Hne Hw Hok Hn Hf Hft Ht Hlen)).
    fold w1. replace (f + Z.of_nat (Z.to_nat (t - f))) with t in Hd by lia.
    by rewrite Hd, Hs1.
  - rewrite Hl. symmetry. by apply lock_of_no_writer.
  - by rewrite Hs.
  - exact Hh'.
Qed.

Lemma llen_stream_of w :
  ledis.llen (db w) (key (self w)) = Z.of_nat (length (stream_of w)).
Proof. reflexivity. Qed.

(** X5: a [Read] whose normalized range [[f, t)] is valid and not empty,
    consumed to its end on a healthy engine with no exclusive hold out,
    yields exactly the events at the indices [f .. t-1] and then [EOI];
    the lock and the stream are afterwards as before the call, and the
    same [Read] made again yields the same events. *)
Theorem Read_yields_range (afrom to f t : Z) (w : world) :
  let len := ledis.llen (db w) (key (self w)) in
  let slice := take (Z.to_nat (t - f)) (drop (Z.to_nat f) (stream_of w)) in
  int afrom <> to ->
  writer (lock_of w) = false ->
  healthy w ->
  normalize (int afrom) to (int len) = (f, t) ->
  0 <= f -> f < t -> t <= len -> len < 2 ^ 31 ->
  exists w' w'',
    read_range (S (Z.to_nat (t - f))) afrom to w = Done (Some (slice, EOI), w')
    /\ length slice = Z.to_nat (t - f)
    /\ lock_of w' = lock_of w
    /\ stream_of w' = stream_of w
    /\ read_range (S (Z.to_nat (t - f))) afrom to w'
       = Done (Some (slice, EOI), w'')
    /\ lock_of w'' = lock_of w.
Proof.
  intros len slice Hne Hw Hh Hn Hf Hft Ht Hlen.
  destruct (read_range_slice afrom to w f t Hne Hw Hh Hn Hf Hft Ht Hlen)
    as (w' & Hr & Hl & Hs & Hh').
  assert (Hlen' : ledis.llen (db w') (key (self w')) = len).
  { unfold len. by rewrite !llen_stream_of, Hs. }
  destruct (read_range_slice afrom to w' f t) as (w'' & Hr' & Hl' & _ & _);
    try done.
  { by rewrite Hl. }
  { by rewrite Hlen'. }
  { by rewrite Hlen'. }
  { by rewrite Hlen'. }
  exists w', w''. split; [exact Hr|]. split; [|split; [|split; [|split]]].
  - unfold slice. rewrite length_take, length_drop.
    unfold len in *. rewrite llen_stream_of in Ht. lia.
  - exact Hl.
  - exact Hs.
  - rewrite Hr'. by rewrite Hs.
  - by rewrite Hl', Hl.
Qed.

Lemma Read_yields_range_witness :
  let w := handle_on [e0; e1; e2; e3; e4] [] in
  exists w' w'',
    read_range 4 1 (-2) w = Done (Some ([e1; e2; e3], EOI), w')
    /\ length [e1; e2; e3] = 3%nat
    /\ lock_of w' = lock_of w
    /\ stream_of w' = stream_of w
    /\ read_range 4 1 (-2) w' = Done (Some ([e1; e2; e3], EOI), w'')
    /\ lock_of w'' = lock_of w.
Proof.
  intros w.
  apply (Read_yields_range 1 (-2) 1 4 w).
  - vm_compute. discriminate.
  - reflexivity.
  - constructor.
  - vm_compute. reflexivity.
  - lia.
  - lia.
  - vm_compute. discriminate.
  - vm_compute. reflexivity.
Defined.

Lemma LIndex_fail k i d e :
  (ledis.tick d).1 = Some e ->
  ledis.LIndex k i d = (([], Some e), (ledis.tick d).2).
Proof. unfold ledis.LIndex. intros Hf. by engine_call d k. Qed.

(** One [Next] inside the range: the event under the cursor, the cursor
    moved by one, the lock untouched. *)
Lemma Next_inside pos lim w x :
  0 <= pos -> pos < lim -> lim < 2 ^ 31 ->
  next_ok w ->
  stream_of w !! Z.to_nat pos = Some x ->
  Next (ListStream (mkIter pos lim)) w
  = Done (((x, None), ListStream (mkIter (pos + 1) lim)),
          with_db (ledis.tick (db w)).2 w).
Proof.
  intros Hpos Hlt Hlim Hok Hx.
  change (2 ^ 31) with 2147483648 in Hlim.
  cbn [Next]. unfold bind at 1. unfold ledisListStream_Next. cbn [l num].
  destruct (Z.leb_spec lim pos); [lia|].
  unfold bind at 1. rewrite engine_eq.
  rewrite (LIndex_ok _ _ _ x Hok Hpos Hx). cbn [fst snd]. unfold ret.
  rewrite int32_small
    by (unfold is_int32; change (2 ^ 31) with 2147483648; lia).
  reflexivity.
Qed.

(** A consumer that stops before the end of the range has no result and
    leaves the lock as the iterator holds it. *)
Lemma drain_short (k : nat) :
  forall (pos lim : Z) (w : world),
    0 <= pos -> pos + Z.of_nat k <= lim ->
    lim <= ledis.llen (db w) (key (self w)) -> lim < 2 ^ 31 ->
    healthy w ->
    exists w',
      drain k (ListStream (mkIter pos lim)) w = Done (None, w')
      /\ lock_of w' = lock_of w
      /\ stream_of w' = stream_of w
      /\ self w' = self w.
Proof.
  induction k as [|k IH]; intros pos lim w Hpos Hend Hlim H31 Hh.
  - exists w. by repeat split.
  - assert (Hin : (Z.to_nat pos < length (stream_of w))%nat).
    { rewrite llen_stream_of in Hlim. lia. }
    destruct (lookup_lt_is_Some_2 _ _ Hin) as [x Hx].
    set (w1 := with_db (ledis.tick (db w)).2 w).
    destruct (IH (pos + 1) lim w1) as (w' & Hd & Hl & Hs & Hself).
    { lia. }
    { lia. }
    { unfold w1. cbn. rewrite tick_llen. lia. }
    { done. }
    { unfold w1, healthy. cbn. by apply healthy_tick. }
    exists w'. split; [|split; [|split]].
    + cbn [drain]. unfold bind at 1.
      rewrite (Next_inside pos lim w x) by (try apply healthy_next_ok; done || lia).
      fold w1. unfold bind at 1. rewrite Hd. reflexivity.
    + by rewrite Hl.
    + rewrite Hs. unfold stream_of, w1. cbn. apply tick_lget.
    + by rewrite Hself.
Qed.

(** X6: a consumer that takes fewer events than the range holds never
    sees the end of the sequence, and the shared hold taken by [Read] stays
    out: from then on every [Del] with a range to delete does not return.
    The stream itself is untouched. *)
Theorem Read_abandoned_blocks_Del (afrom to f t : Z) (k : nat) (w : world) :
  let len := ledis.llen (db w) (key (self w)) in
  int afrom <> to ->
  writer (lock_of w) = false ->
  healthy w ->
  normalize (int afrom) to (int len) = (f, t) ->
  0 <= f -> f < t -> t <= len -> len < 2 ^ 31 ->
  Z.of_nat k <= t - f ->
  exists w',
    read_range k afrom to w = Done (None, w')
    /\ lock_of w' = mkRW (S (readers (lock_of w))) false
    /\ stream_of w' = stream_of w
    /\ forall dfrom dto, int64 dfrom <> int64 dto -> Del dfrom dto w' = Blocked.
Proof.
  intros len Hne Hw Hh Hn Hf Hft Ht Hlen Hk.
  pose proof (healthy_next_ok _ Hh) as Hok.
  set (w1 := with_db (ledis.tick (db w)).2
               (set_lock (mkRW (S (readers (lock_of w))) false) w)).
  destruct (drain_short k f t w1) as (w' & Hd & Hl & Hs & _).
  { lia. }
  { lia. }
  { unfold w1. cbn. rewrite tick_llen. exact Ht. }
  { lia. }
  { unfold w1, healthy. cbn. by apply healthy_tick. }
  exists w'. split; [|split; [|split]].
  - unfold read_range.
    rewrite (bind_Done _ _ _ _ _
               (Read_iterator afrom to w f t Hne Hw Hok Hn Hf Hft Ht Hlen)).
    exact Hd.
  - by rewrite Hl.
  - rewrite Hs. unfold stream_of, w1. cbn. apply tick_lget.
  - intros dfrom dto Hd'. apply Del_blocked; [done|]. rewrite Hl. cbn. lia.
Qed.

Lemma Read_abandoned_blocks_Del_witness :
  let w := handle_on [e0; e1; e2; e3; e4] [] in
  exists w',
    read_range 2 0 5 w = Done (None, w')
    /\ lock_of w' = mkRW 1 false
    /\ stream_of w' = stream_of w
    /\ forall dfrom dto, int64 dfrom <> int64 dto -> Del dfrom dto w' = Blocked.
Proof.
  intros w.
  apply (Read_abandoned_blocks_Del 0 5 0 5 2 w).
  - vm_compute. discriminate.
  - reflexivity.
  - constructor.
  - vm_compute. reflexivity.
  - lia.
  - lia.
  - vm_compute. discriminate.
  - vm_compute. reflexivity.
  - lia.
Defined.

(** A fetch that fails after [i] good ones ends the run with that error
    and the events fetched so far, and gives the shared hold back. *)
Lemma drain_fetch_fails (i : nat) :
  forall (fuel : nat) (pos lim : Z) (w : world) (e : error) (r : nat)
         (wr : bool),
    (i < fuel)%nat ->
    0 <= pos -> pos + Z.of_nat i < lim ->
    lim <= ledis.llen (db w) (key (self w)) -> lim < 2 ^ 31 ->
    calls_ok i (db w) ->
    ledis.faults (db w) !! i = Some (Some e) ->
    lock_of w = mkRW (S r) wr ->
    exists w',
      drain fuel (ListStream (mkIter pos lim)) w
      = Done (Some (take i (drop (Z.to_nat pos) (stream_of w)), e), w')
      /\ lock_of w' = mkRW r wr
      /\ stream_of w' = stream_of w.
Proof.
  induction i as [|i IH];
    intros fuel pos lim w e r wr Hfuel Hpos Hend Hlim H31 Hok He Hlock;
    (destruct fuel as [|fuel]; [lia|]).
  - assert (Hf : (ledis.tick (db w)).1 = Some e).
    { rewrite tick_fst. destruct (ledis.faults (db w)); [done|].
      cbn in He. by simplify_eq. }
    exists (set_lock (mkRW r wr) (with_db (ledis.tick (db w)).2 w)).
    split; [|split].
    + cbn [drain Next]. unfold bind at 1. unfold bind at 1.
      unfold ledisListStream_Next. cbn [l num].
      destruct (Z.leb_spec lim pos); [lia|].
      unfold bind at 1. rewrite engine_eq, (LIndex_fail _ _ _ e Hf).
      cbn [fst snd].
      erewrite bind_Done; [|by apply RUnlock_ok]. unfold ret.
      by rewrite take_0.
    + reflexivity.
    + unfold stream_of. cbn. apply tick_lget.
  - apply calls_ok_S in Hok as [Hok1 Hok].
    assert (Hin : (Z.to_nat pos < length (stream_of w))%nat).
    { rewrite llen_stream_of in Hlim. lia. }
    destruct (lookup_lt_is_Some_2 _ _ Hin) as [x Hx].
    set (w1 := with_db (ledis.tick (db w)).2 w).
    destruct (IH fuel (pos + 1) lim w1 e r wr) as (w' & Hd & Hl & Hs).
    { lia. }
    { lia. }
    { lia. }
    { unfold w1. cbn. rewrite tick_llen. lia. }
    { done. }
    { exact Hok. }
    { unfold w1. cbn. rewrite tick_faults.
      destruct (ledis.faults (db w)); [done|]. exact He. }
    { exact Hlock. }
    assert (Hs1 : stream_of w1 = stream_of w).
    { unfold stream_of, w1. cbn. apply tick_lget. }
    exists w'. split; [|split].
    + cbn [drain]. unfold bind at 1.
      rewrite (Next_inside pos lim w x) by (done || lia).
      fold w1. unfold bind at 1. rewrite Hd. unfold ret.
      do 3 f_equal. rewrite Hs1.
      replace (Z.to_nat (pos + 1)) with (S (Z.to_nat pos)) by lia.
      by rewrite (drop_S _ _ _ Hx).
    + exact Hl.
    + by rewrite Hs.
Qed.

(** X7: when the fetch of the event number [i] of a range fails (the
    length query and the [i] fetches before it having succeeded), the
    consumer gets the first [i] events of the range and then the engine's
    own error; the iterator gives the shared hold back, so the lock is as
    it was before the [Read]. *)
Theorem Read_fetch_failure_releases (afrom to f t : Z) (i fuel : nat)
        (e : error) (w : world) :
  let len := ledis.llen (db w) (key (self w)) in
  int afrom <> to ->
  writer (lock_of w) = false ->
  normalize (int afrom) to (int len) = (f, t) ->
  0 <= f -> f < t -> t <= len -> len < 2 ^ 31 ->
  Z.of_nat i < t - f -> (i < fuel)%nat ->
  calls_ok (S i) (db w) ->
  ledis.faults (db w) !! S i = Some (Some e) ->
  exists w',
    read_range fuel afrom to w
    = Done (Some (take i (drop (Z.to_nat f) (stream_of w)), e), w')
    /\ lock_of w' = lock_of w
    /\ stream_of w' = stream_of w.
Proof.
  intros len Hne Hw Hn Hf Hft Ht Hlen Hi Hfuel Hok He.
  apply calls_ok_S in Hok as [Hok1 Hok].
  set (w1 := with_db (ledis.tick (db w)).2
               (set_lock (mkRW (S (readers (lock_of w))) false) w)).
  assert (Hs1 : stream_of w1 = stream_of w).
  { unfold stream_of, w1. cbn. apply tick_lget. }
  destruct (drain_fetch_fails i fuel f t w1 e (readers (lock_of w)) false)
    as (w' & Hd & Hl & Hs); try done.
  { lia. }
  { unfold w1. cbn. by rewrite tick_llen. }
  { lia. }
  { unfold w1. cbn. rewrite tick_faults.
    destruct (ledis.faults (db w)); [done|]. exact He. }
  exists w'. split; [|split].
  - unfold read_range.
    rewrite (bind_Done _ _ _ _ _
               (Read_iterator afrom to w f t Hne Hw Hok1 Hn Hf Hft Ht Hlen)).
    fold w1. by rewrite Hd, Hs1.
  - rewrite Hl. symmetry. by apply lock_of_no_writer.
  - by rewrite Hs.
Qed.

Lemma Read_fetch_failure_releases_witness :
  let e := EngineError "read error" in
  let w := handle_on [e0; e1; e2; e3; e4] [None; None; None; Some e] in
  exists w',
    read_range 6 0 5 w = Done (Some ([e0; e1], e), w')
    /\ lock_of w' = lock_of w
    /\ stream_of w' = stream_of w.
Proof.
  intros e w.
  apply (Read_fetch_failure_releases 0 5 0 5 2 6 e w).
  - vm_compute. discriminate.
  - reflexivity.
  - vm_compute. reflexivity.
  - lia.
  - lia.
  - vm_compute. discriminate.
  - vm_compute. reflexivity.
  - lia.
  - lia.
  - repeat constructor.
  - reflexivity.
Defined.

(** X8: an iterator that has reached its bound gives back a shared hold
    at every further [Next], not only at the first: [k] calls past the end
    take [k] holds off the lock, holds that other readers own, and the
    call made when no shared hold is left is a fatal runtime error. *)
Theorem Next_past_end_releases_again (k : nat) (it : ledisListStream)
        (w : world) :
  l it <= num it ->
  ((k <= readers (lock_of w))%nat ->
   Next_times k (ListStream it) w
   = Done (replicate k ([], Some EOI),
           set_lock (mkRW (readers (lock_of w) - k) (writer (lock_of w))) w))
  /\ ((readers (lock_of w) < k)%nat ->
      Next_times k (ListStream it) w
      = Fatal "sync: RUnlock of unlocked RWMutex").
Proof.
  intros Hend. revert w.
  induction k as [|k IH]; intros w; (split; [intros Hk|intros Hk; try lia]).
  - cbn. unfold ret. rewrite Nat.sub_0_r.
    destruct w as [d [nm ky [r wr] rc] lg]. reflexivity.
  - destruct (lock_of w) as [[|r] wr] eqn:Hlock; [cbn in Hk; lia|].
    cbn [Next_times replicate]. unfold bind at 1. cbn [Next].
    unfold bind at 1. unfold ledisListStream_Next.
    destruct (Z.leb_spec (l it) (num it)); [|lia].
    erewrite bind_Done; [|by apply RUnlock_ok]. unfold ret at 1 2.
    destruct (IH (set_lock (mkRW r wr) w)) as [IHok _].
    unfold bind at 1. rewrite IHok by (cbn in *; lia).
    unfold ret. cbn. do 2 f_equal.
  - destruct (lock_of w) as [[|r] wr] eqn:Hlock.
    + cbn [Next_times]. unfold bind at 1. cbn [Next].
      unfold bind at 1. unfold ledisListStream_Next.
      destruct (Z.leb_spec (l it) (num it)); [|lia].
      unfold bind at 1, RUnlock. fold (lock_of w). by rewrite Hlock.
    + cbn [Next_times]. unfold bind at 1. cbn [Next].
      unfold bind at 1. unfold ledisListStream_Next.
      destruct (Z.leb_spec (l it) (num it)); [|lia].
      erewrite bind_Done; [|by apply RUnlock_ok]. unfold ret at 1 2.
      destruct (IH (set_lock (mkRW r wr) w)) as [_ IHfatal].
      unfold bind at 1. by rewrite IHfatal by (cbn in *; lia).
Qed.

Lemma Next_past_end_releases_again_witness :
  let w := set_lock (mkRW 2 false) (handle_on [e0; e1] []) in
  Next_times 2 (ListStream (mkIter 2 2)) w
  = Done ([([], Some EOI); ([], Some EOI)], set_lock (mkRW 0 false) w)
  /\ Next_times 3 (ListStream (mkIter 2 2)) w
     = Fatal "sync: RUnlock of unlocked RWMutex".
Proof.
  intros w.
  destruct (Next_past_end_releases_again 2 (mkIter 2 2) w) as [Hok _];
    [cbn; lia|].
  destruct (Next_past_end_releases_again 3 (mkIter 2 2) w) as [_ Hfatal];
    [cbn; lia|].
  split.
  - apply Hok. cbn. lia.
  - apply Hfatal. cbn. lia.
Defined.

(** ** Del at the ends of the stream *)



(** [LTrim] from the last element on keeps that element. *)
Lemma LTrim_last k b d :
  (ledis.tick d).1 = None ->
  is_int32 b -> 0 < ledis.llen d k -> ledis.llen d k - 1 <= b ->
  ledis.LTrim k (-1) b d
  = (None,
     ledis.lset (ledis.tick d).2 k
       (drop (Z.to_nat (ledis.llen d k - 1)) (ledis.lget d k))).
Proof.
  intros Hok Hb32 Hpos Hb. unfold ledis.LTrim. engine_call d k.
  rewrite (int32_small (-1)) by (unfold is_int32; lia).
  rewrite (int32_small b) by done.
  ztests. cbn [orb]. ztests. do 2 f_equal.
  apply take_ge. rewrite length_drop. unfold ledis.llen in *.
  destruct (Z.leb_spec (Z.of_nat (length (ledis.lget d k))) b); lia.
Qed.




(** [Del] on a lower bound [0], up to the trim of its prefix case. *)
Lemma Del_locked_prefix t to w :
  let len := ledis.llen (db w) (key (self w)) in
  t <> -1 ->
  normalize 0 t len = (0, to) ->
  to <> len ->
  (ledis.tick (db w)).1 = None ->
  Del_locked 0 t w
  = (do err <- engine (fun k => ledis.LTrim k (int64 (to - 1)) len) ;
     ret (bool_decide (err = None), err))
      (with_db (ledis.tick (db w)).2 w).
Proof.
  intros len Ht Hn Hto Hok. unfold Del_locked.
  destruct (Z.eqb_spec t (-1)); [done|]. cbn [Z.eqb andb].
  unfold bind at 1. rewrite engine_eq, (LLen_ok _ _ Hok). cbn [fst snd].
  fold len. rewrite Hn.
  destruct (Z.eqb_spec to len); [done|]. cbn [Z.eqb andb]. reflexivity.
Qed.



(** X11: [Del 0 (-(length + 1))], whose upper bound normalizes to [0] (the
    empty range at the start), is not a no-op: on a non-empty stream it
    removes every event but the last and returns [true] with no error. *)
Theorem Del_empty_prefix_keeps_last (afrom ato : Z) (w : world) :
  let len := ledis.llen (db w) (key (self w)) in
  int64 afrom = 0 ->
  int64 ato = - (len + 1) ->
  0 < len -> len < 2 ^ 31 ->
  lock_free w ->
  calls_ok 2 (db w) ->
  exists w',
    Del afrom ato w = Done ((true, None), w')
    /\ stream_of w' = drop (Z.to_nat (len - 1)) (stream_of w)
    /\ length (stream_of w') = 1%nat
    /\ lock_free w'.
Proof.
  intros len Hf0 Ht Hpos H31 Hfree Hok.
  apply calls_ok_S in Hok as [Hok1 Hok].
  apply calls_ok_S in Hok as [Hok2 _].
  change (2 ^ 31) with 2147483648 in H31.
  assert (Hn : normalize 0 (int64 ato) len = (0, 0)).
  { rewrite Ht. unfold normalize.
    destruct (Z.ltb_spec (- (len + 1)) 0); [|lia].
    replace (len + 1 + - (len + 1)) with 0 by lia. reflexivity. }
  eexists. split.
  - apply Del_unlocked; [rewrite Hf0, Ht; lia|done| |].
    + assert (Hne : 0 <> len) by lia.
      assert (Ht1 : int64 ato <> -1) by (rewrite Ht; lia).
      rewrite Hf0.
      rewrite (Del_locked_prefix (int64 ato) 0 (set_lock (mkRW 0 true) w)
                 Ht1 Hn Hne Hok1).
      unfold bind at 1. rewrite engine_eq. cbn [db self with_db key set_lock].
      change (int64 (0 - 1)) with (-1).
      rewrite LTrim_last;
        [|done|unfold is_int32; change (2 ^ 31) with 2147483648; fold len; lia
         |rewrite tick_llen; fold len; lia|rewrite tick_llen; fold len; lia].
      cbn [fst snd]. unfold ret. reflexivity.
    + reflexivity.
  - unfold stream_of. cbn. rewrite lget_lset, !tick_lget, tick_llen.
    fold len. split; [reflexivity|]. split; [|reflexivity].
    rewrite length_drop. unfold len, ledis.llen in *. lia.
Qed.

Lemma Del_empty_prefix_keeps_last_witness :
  let w := handle_on [e0; e1; e2; e3] [] in
  exists w',
    Del 0 (-5) w = Done ((true, None), w')
    /\ stream_of w' = drop (Z.to_nat (4 - 1)) (stream_of w)
    /\ length (stream_of w') = 1%nat
    /\ lock_free w'.
Proof.
  intros w.
  apply (Del_empty_prefix_keeps_last 0 (-5) w).
  - reflexivity.
  - vm_compute. reflexivity.
  - vm_compute. reflexivity.
  - vm_compute. reflexivity.
  - reflexivity.
  - constructor.
Defined.

(** ** Del: refusals and failures that change nothing *)

Lemma normalize_from_nonzero f t l from to :
  normalize f t l = (from, to) -> from <> 0 -> f <> 0.
Proof.
  unfold normalize. intros [= <- <-] Hne ->. by apply Hne.
Qed.

(** X12: when neither end of the normalized range touches an end of the
    stream and the range check refuses it, [Del] returns [false] with the
    check's error after one engine call (the length query): the stream, the
    log and the lock are as before. *)
Theorem Del_refused_range_changes_nothing (afrom ato from to : Z)
        (e : error) (w : world) :
  let len := ledis.llen (db w) (key (self w)) in
  int64 afrom <> int64 ato ->
  lock_free w ->
  next_ok w ->
  normalize (int64 afrom) (int64 ato) len = (from, to) ->
  from <> 0 -> to <> len ->
  checkRange (int from) (int to) (int len) "ledisStreamObj.Del" = Some e ->
  Del afrom ato w = Done ((false, Some e), with_db (ledis.tick (db w)).2 w).
Proof.
  intros len Hne Hfree Hok Hn Hfrom Hto Hc.
  pose proof (normalize_from_nonzero _ _ _ _ _ Hn Hfrom) as Hraw.
  replace (with_db (ledis.tick (db w)).2 w)
    with (set_lock (mkRW 0 false)
            (with_db (ledis.tick (db w)).2 (set_lock (mkRW 0 true) w))).
  2:{ unfold lock_free, lock_of in Hfree.
      destruct w as [d [nm k lk rc] lg]. cbn in *. by subst. }
  apply Del_unlocked; [done|done| |reflexivity].
  unfold Del_locked.
  destruct (Z.eqb_spec (int64 afrom) 0); [done|]. cbn [andb].
  unfold bind at 1. rewrite engine_eq. cbn [db self with_db key set_lock].
  rewrite (LLen_ok _ _ Hok). cbn [fst snd]. fold len. rewrite Hn.
  destruct (Z.eqb_spec from 0); [done|]. cbn [andb].
  destruct (Z.eqb_spec to len); [done|].
  by rewrite Hc.
Qed.

Lemma Del_refused_range_changes_nothing_witness :
  let w := handle_on [e0; e1; e2; e3; e4] [] in
  Del 3 1 w
  = Done ((false, Some (InvalidRange "ledisStreamObj.Del" 3 1 5)),
          with_db (ledis.tick (db w)).2 w).
Proof.
  intros w.
  apply (Del_refused_range_changes_nothing 3 1 3 1
           (InvalidRange "ledisStreamObj.Del" 3 1 5) w).
  - vm_compute. discriminate.
  - reflexivity.
  - reflexivity.
  - reflexivity.
  - lia.
  - vm_compute. discriminate.
  - vm_compute. reflexivity.
Defined.

Lemma LRange_fail k a b d e :
  (ledis.tick d).1 = Some e ->
  ledis.LRange k a b d = (([], Some e), (ledis.tick d).2).
Proof. unfold ledis.LRange. intros Hf. by engine_call d k. Qed.

Lemma nth_call_fails (i : nat) :
  forall d e,
    calls_ok i d ->
    ledis.faults d !! i = Some (Some e) ->
    (ledis.tick (Nat.iter i (fun d => (ledis.tick d).2) d)).1 = Some e
    /\ forall k, ledis.lget (Nat.iter i (fun d => (ledis.tick d).2) d) k
                 = ledis.lget d k.
Proof.
  induction i as [|i IH]; intros d e Hok He.
  - cbn. split; [|done]. rewrite tick_fst.
    destruct (ledis.faults d); [done|]. cbn in He. by simplify_eq.
  - apply calls_ok_S in Hok as [Hok1 Hok].
    rewrite Nat.iter_succ_r.
    destruct (IH (ledis.tick d).2 e Hok) as [Hf Hl].
    { rewrite tick_faults. destruct (ledis.faults d); [done|]. exact He. }
    split; [exact Hf|]. intros k. by rewrite Hl, tick_lget.
Qed.

(** X13: in the general case of [Del], a failure of the length query, of
    the reading of the tail or of the trim (the engine call number [i],
    [i < 3]) makes [Del] return [false] with the engine's own error; the
    stream is as before, nothing is logged and the lock is free again. *)
Theorem Del_failure_before_trim_changes_nothing (afrom ato from to : Z)
        (i : nat) (e : error) (w : world) :
  let len := ledis.llen (db w) (key (self w)) in
  int64 afrom <> int64 ato ->
  lock_free w ->
  normalize (int64 afrom) (int64 ato) len = (from, to) ->
  0 < from -> from <= to -> to < len -> len < 2 ^ 31 ->
  (i < 3)%nat ->
  calls_ok i (db w) ->
  ledis.faults (db w) !! i = Some (Some e) ->
  exists w',
    Del afrom ato w = Done ((false, Some e), w')
    /\ stream_of w' = stream_of w
    /\ stderr w' = stderr w
    /\ lock_free w'.
Proof.
  intros len Hne Hfree Hn Hfrom Hft Hto Hlen Hi Hok He.
  pose proof (normalize_raw_from _ _ _ _ _ Hn Hfrom) as Hraw.
  destruct (nth_call_fails i (db w) e Hok He) as [Hfail Hsame].
  change (2 ^ 31) with 2147483648 in Hlen.
  assert (Hi32 : forall z, 0 <= z <= len -> is_int32 z).
  { intros z Hz. unfold is_int32. change (2 ^ 31) with 2147483648. lia. }
  assert (Hi64 : forall z, 0 <= z <= len -> is_int z).
  { intros z Hz. by apply is_int32_is_int, Hi32. }
  assert (Hbody : exists d',
             Del_locked (int64 afrom) (int64 ato) (set_lock (mkRW 0 true) w)
             = Done ((false, Some e), with_db d' (set_lock (mkRW 0 true) w))
             /\ ledis.lget d' (key (self w)) = ledis.lget (db w) (key (self w))).
  { unfold Del_locked.
    destruct (Z.eqb_spec (int64 afrom) 0); [done|]. cbn [andb].
    unfold bind at 1. rewrite engine_eq. cbn [db self with_db key set_lock].
    destruct i as [|i].
    { cbn in Hfail. rewrite (LLen_fail _ _ e Hfail). cbn [fst snd].
      eexists. split; [reflexivity|]. apply tick_lget. }
    apply calls_ok_S in Hok as [Hok1 Hok].
    rewrite (LLen_ok _ _ Hok1). cbn [fst snd]. fold len. rewrite Hn.
    destruct (Z.eqb_spec from 0); [lia|]. cbn [andb].
    destruct (Z.eqb_spec to len); [lia|].
    rewrite !int_small by (apply Hi64; lia).
    unfold checkRange.
    destruct (Z.leb_spec 0 from); [|lia].
    destruct (Z.leb_spec from to); [|lia].
    destruct (Z.leb_spec to len); [|lia]. cbn [andb].
    unfold bind at 1. rewrite engine_eq. cbn [db self with_db key set_lock].
    rewrite !int32_small by (apply Hi32; lia).
    rewrite Nat.iter_succ_r in Hfail, Hsame.
    destruct i as [|i].
    { cbn in Hfail. rewrite (LRange_fail _ _ _ _ e Hfail). cbn [fst snd].
      eexists. split; [reflexivity|]. by rewrite !tick_lget. }
    apply calls_ok_S in Hok as [Hok2 Hok].
    rewrite LRange_tail; [|done|rewrite tick_llen; fold len; lia
                         |rewrite tick_llen; fold len; lia].
    cbn [fst snd].
    unfold bind at 1. rewrite engine_eq. cbn [db self with_db key set_lock].
    rewrite Nat.iter_succ_r in Hfail, Hsame.
    destruct i as [|i]; [|lia].
    cbn in Hfail. rewrite (LTrim_fail _ _ _ _ e Hfail). cbn [fst snd].
    eexists. split; [reflexivity|]. by rewrite !tick_lget. }
  destruct Hbody as (d' & Hbody & Hl).
  eexists. split; [by apply (Del_unlocked _ _ _ _ _ Hne Hfree Hbody)|].
  split; [|by split]. unfold stream_of. cbn. exact Hl.
Qed.

Lemma Del_failure_before_trim_changes_nothing_witness :
  let e := EngineError "i/o error" in
  let w := handle_on [e0; e1; e2; e3; e4] [None; Some e] in
  exists w',
    Del 1 4 w = Done ((false, Some e), w')
    /\ stream_of w' = stream_of w
    /\ stderr w' = stderr w
    /\ lock_free w'.
Proof.
  intros e w.
  apply (Del_failure_before_trim_changes_nothing 1 4 1 4 1 e w).
  - vm_compute. discriminate.
  - reflexivity.
  - reflexivity.
  - lia.
  - lia.
  - vm_compute. reflexivity.
  - vm_compute. reflexivity.
  - lia.
  - repeat constructor.
  - reflexivity.
Defined.

(** X14: [Del 0 length] on a non-empty stream (the whole range written
    with a positive upper bound) empties the stream and returns [true],
    as [Del 0 (-1)] does, after one more engine call. *)
Theorem Del_zero_to_length_clears (w : world) :
  let len := ledis.llen (db w) (key (self w)) in
  0 < len -> len < 2 ^ 63 ->
  lock_free w ->
  calls_ok 2 (db w) ->
  exists w',
    Del 0 len w = Done ((true, None), w')
    /\ stream_of w' = []
    /\ lock_free w'
    /\ ledis.faults (db w') = drop 2 (ledis.faults (db w)).
Proof.
  intros len Hpos Hlen Hfree Hok.
  apply calls_ok_S in Hok as [Hok1 Hok].
  apply calls_ok_S in Hok as [Hok2 _].
  assert (Hi : is_int len) by (unfold is_int; lia).
  assert (H0 : int64 0 = 0) by reflexivity.
  eexists. split.
  - apply Del_unlocked; [rewrite H0, int64_small by done; lia|done| |].
    + rewrite H0, int64_small by done. unfold Del_locked.
      destruct (Z.eqb_spec len (-1)); [lia|]. cbn [Z.eqb andb].
      unfold bind at 1. rewrite engine_eq. cbn [db self with_db key set_lock].
      rewrite (LLen_ok _ _ Hok1). cbn [fst snd]. fold len.
      rewrite normalize_nonneg by lia.
      rewrite !Z.eqb_refl. cbn [andb].
      unfold bind at 1. rewrite engine_eq. cbn [db self with_db key set_lock].
      rewrite (LClear_ok _ _ Hok2). cbn [fst snd].
      rewrite tick_llen. fold len.
      destruct (Z.eqb_spec len 0); [lia|]. reflexivity.
    + reflexivity.
  - unfold stream_of. cbn. rewrite lget_lset, faults_lset, !tick_faults.
    repeat split. by destruct (ledis.faults (db w)) as [|? [|? ?]].
Qed.

Lemma Del_zero_to_length_clears_witness :
  let w := handle_on [e0; e1; e2] [] in
  exists w',
    Del 0 3 w = Done ((true, None), w')
    /\ stream_of w' = []
    /\ lock_free w'
    /\ ledis.faults (db w') = drop 2 (ledis.faults (db w)).
Proof.
  intros w. apply (Del_zero_to_length_clears w).
  - vm_compute. reflexivity.
  - vm_compute. reflexivity.
  - reflexivity.
  - constructor.
Defined.

(** * Further properties of the backend *)

Lemma GetStream_table nm b p b' :
  GetStream nm b = Done ((p, None), b') ->
  exists m', data b' = Some m' /\ m' !! nm = Some p.
Proof.
  unfold GetStream. destruct (data b) as [m|]; [|done].
  destruct (m !! nm) as [v|] eqn:Hv; intros [= <- <-]; cbn.
  - by exists m.
  - eexists. split; [reflexivity|]. apply lookup_insert_eq.
Qed.

(** X15: two calls of [GetStream] for one name, with nothing in between,
    return the same pointer: the second call allocates nothing, leaves the
    table as the first left it and adds one to the count of that one
    object. *)
Theorem GetStream_twice_same_handle (nm : string) (b b1 : ledisBackend)
        (p : nat) :
  GetStream nm b = Done ((p, None), b1) ->
  exists b2,
    GetStream nm b1 = Done ((p, None), b2)
    /\ data b2 = data b1
    /\ length (heap b2) = length (heap b1)
    /\ heap b2 !! p = add_refcnt 1 <$> heap b1 !! p
    /\ forall q, q <> p -> heap b2 !! q = heap b1 !! q.
Proof.
  intros Hget. destruct (GetStream_table _ _ _ _ Hget) as (m' & Hd & Hp).
  eexists. split; [by apply GetStream_cached|]. cbn.
  split; [done|]. split; [apply length_alter|].
  split; [apply list_lookup_alter_eq|].
  intros q Hq. by apply list_lookup_alter_ne.
Qed.

Lemma GetStream_twice_same_handle_witness :
  let b := NewLedis "/var/db" in
  let b1 := after_GetStream "a" b in
  exists b2,
    GetStream "a" b1 = Done ((0%nat, None), b2)
    /\ data b2 = data b1
    /\ length (heap b2) = length (heap b1)
    /\ heap b2 !! 0%nat = add_refcnt 1 <$> heap b1 !! 0%nat
    /\ forall q, q <> 0%nat -> heap b2 !! q = heap b1 !! q.
Proof.
  intros b b1.
  apply (GetStream_twice_same_handle "a" b b1 0). vm_compute. reflexivity.
Defined.

(** X16: in every reachable state the count of each handle object is the
    number of acquisitions of it that were not released, and an object is
    the table's entry for its name exactly when that number is positive;
    so two different names in the table never share an object. *)
Theorem refcnt_counts_holds (n : nat) (b : ledisBackend) (held : holdings)
        (m : gmap string nat) :
  reachable n b held ->
  Z.of_nat n < 2 ^ 63 ->
  data b = Some m ->
  (forall p o, heap b !! p = Some o ->
     refcnt o = Z.of_nat (held p)
     /\ ((0 < held p)%nat <-> m !! name o = Some p))
  /\ (forall nm1 nm2 p q,
        m !! nm1 = Some p -> m !! nm2 = Some q -> nm1 <> nm2 -> p <> q).
Proof.
  intros Hr Hn Hd.
  pose proof (reachable_inv _ _ _ Hr Hn) as Hinv.
  unfold backend_inv in Hinv. rewrite Hd in Hinv.
  destruct Hinv as (T1 & T2 & T3 & T4). split.
  - intros p o Ho. split; [by apply T3|]. split.
    + intros Hp. destruct (T2 p Hp) as (o' & Ho' & Hm). by simplify_eq.
    + intros Hm. by destruct (T1 _ _ Hm) as (_ & _ & _ & Hh).
  - intros nm1 nm2 p q Hp Hq Hne ->.
    destruct (T1 _ _ Hp) as (o1 & Ho1 & Hn1 & _).
    destruct (T1 _ _ Hq) as (o2 & Ho2 & Hn2 & _).
    by simplify_eq.
Qed.

Lemma refcnt_counts_holds_witness :
  let b0 := NewLedis "/var/db" in
  let b1 := after_GetStream "a" b0 in
  let b2 := after_GetStream "a" b1 in
  let b3 := after_GetStream "b" b2 in
  let held := acquire 1 (acquire 0 (acquire 0 (fun _ => O))) in
  let m : gmap string nat := <["b" := 1%nat]> (<["a" := 0%nat]> ∅) in
  (forall p o, heap b3 !! p = Some o ->
     refcnt o = Z.of_nat (held p)
     /\ ((0 < held p)%nat <-> m !! name o = Some p))
  /\ (forall nm1 nm2 p q,
        m !! nm1 = Some p -> m !! nm2 = Some q -> nm1 <> nm2 -> p <> q).
Proof.
  intros b0 b1 b2 b3 held m.
  apply (refcnt_counts_holds 3 b3 held m); [|lia|vm_compute; reflexivity].
  apply (reach_GetStream 2 b2 _ "b" 1%nat b3); [|vm_compute; reflexivity].
  apply (reach_GetStream 1 b1 _ "a" 0%nat b2); [|vm_compute; reflexivity].
  apply (reach_GetStream 0 b0 _ "a" 0%nat b1); [|vm_compute; reflexivity].
  apply reach_new.
Defined.

(** X17: acquiring a handle and releasing it again undoes itself.  In a
    reachable state with the table in place, [GetStream] followed by
    [release] of the returned pointer leaves the table exactly as it was
    and every object that existed before with the count it had: a name
    that was absent is absent again, a name that was present keeps its
    entry. *)
Theorem GetStream_release_round_trip (n : nat) (b b1 : ledisBackend)
        (held : holdings) (nm : string) (p : nat) :
  reachable n b held ->
  Z.of_nat (S n) < 2 ^ 63 ->
  GetStream nm b = Done ((p, None), b1) ->
  data (release p b1) = data b
  /\ forall q o, heap b !! q = Some o -> heap (release p b1) !! q = Some o.
Proof.
  intros Hr Hn Hget.
  pose proof (reachable_inv _ _ _ Hr ltac:(lia)) as Hinv.
  unfold backend_inv in Hinv.
  destruct (data b) as [m|] eqn:Hd;
    [|by rewrite (GetStream_closed _ _ Hd) in Hget].
  destruct Hinv as (T1 & T2 & T3 & T4).
  assert (Hback : forall c : nat,
             (c <= n)%nat ->
             int (int (Z.of_nat c + 1) + -1) = Z.of_nat c).
  { intros c Hc.
    replace (Z.of_nat c + 1) with (Z.of_nat (S c)) by lia.
    rewrite (int_of_count (S c) n) by (done || lia).
    replace (Z.of_nat (S c) + -1) with (Z.of_nat c) by lia.
    apply (int_of_count c n); [lia|done]. }
  destruct (m !! nm) as [v|] eqn:Hv.
  - rewrite (GetStream_cached _ _ _ _ Hd Hv) in Hget. simplify_eq.
    destruct (T1 _ _ Hv) as (o & Ho & Hno & Hh).
    pose proof (T3 _ _ Ho) as Hrc.
    assert (Ho1 : alter (add_refcnt 1) p (heap b) !! p
                  = Some (add_refcnt 1 o)).
    { by rewrite list_lookup_alter_eq, Ho. }
    rewrite (release_found p
               (mkBackend (dirname b) (Some m)
                          (alter (add_refcnt 1) p (heap b)))
               (add_refcnt 1 o) Ho1).
    cbn [data heap add_refcnt refcnt name].
    rewrite Hrc, (Hback _ (T4 p)).
    destruct (Z.eqb_spec (Z.of_nat (held p)) 0); [lia|].
    split; [done|]. intros q oq Hq.
    destruct (decide (q = p)) as [->|Hne].
    + rewrite list_lookup_alter_eq, Ho1.
      assert (oq = o) as -> by congruence.
      destruct o as [nm' k' lk' rc']. cbn in *.
      unfold add_refcnt. cbn. do 2 f_equal. rewrite Hrc. apply Hback, T4.
    + by rewrite !list_lookup_alter_ne.
  - rewrite (GetStream_absent _ _ _ Hd Hv) in Hget. simplify_eq.
    set (new := mkObj nm nm (mkRW 0 false) (int (0 + 1))).
    assert (Ho1 : (heap b ++ [new]) !! length (heap b) = Some new).
    { by rewrite list_lookup_middle. }
    rewrite (release_found (length (heap b))
               (mkBackend (dirname b) (Some (<[nm := length (heap b)]> m))
                          (heap b ++ [new]))
               new Ho1).
    cbn [data heap refcnt name new].
    change (int (int (0 + 1) + -1) =? 0) with true. cbn [fmap option_fmap option_map].
    split.
    + f_equal. by apply delete_insert_id.
    + intros q oq Hq.
      pose proof (lookup_lt_Some _ _ _ Hq) as Hlt.
      rewrite list_lookup_alter_ne by lia.
      by apply lookup_app_l_Some.
Qed.

Lemma GetStream_release_round_trip_witness :
  let b0 := NewLedis "/var/db" in
  let b1 := after_GetStream "a" b0 in
  let b2 := after_GetStream "b" b1 in
  data (release 1 b2) = data b1
  /\ forall q o, heap b1 !! q = Some o -> heap (release 1 b2) !! q = Some o.
Proof.
  intros b0 b1 b2.
  apply (GetStream_release_round_trip 1 b1 b2 (acquire 0 (fun _ => O)) "b" 1).
  - apply (reach_GetStream 0 b0 _ "a" 0%nat b1); [|vm_compute; reflexivity].
    apply reach_new.
  - lia.
  - vm_compute. reflexivity.
Defined.

(** X18: the release of the last hold on a handle takes its name out of
    the table, and the next [GetStream] for that name does not bring the
    old object back: it allocates a new object, with a count of one and a
    lock of its own, while the old object stays in memory with a count of
    zero.  A caller that kept the old pointer and a caller that got the new
    one no longer share a lock. *)
Theorem last_release_then_fresh_handle (n : nat) (b : ledisBackend)
        (held : holdings) (m : gmap string nat) (p : nat)
        (o : ledisStreamObj) :
  reachable n b held ->
  Z.of_nat (S n) < 2 ^ 63 ->
  data b = Some m ->
  heap b !! p = Some o ->
  held p = 1%nat ->
  data (release p b) = Some (delete (name o) m)
  /\ exists b2,
       GetStream (name o) (release p b)
       = Done ((length (heap b), None), b2)
       /\ length (heap b) <> p
       /\ heap b2 !! length (heap b)
          = Some (mkObj (name o) (name o) (mkRW 0 false) 1)
       /\ heap b2 !! p
          = Some (mkObj (name o) (key o) (delLock o) 0).
Proof.
  intros Hr Hn Hd Ho Hheld.
  pose proof (reachable_inv _ _ _ Hr ltac:(lia)) as Hinv.
  unfold backend_inv in Hinv. rewrite Hd in Hinv.
  destruct Hinv as (T1 & T2 & T3 & T4).
  pose proof (T3 _ _ Ho) as Hrc. rewrite Hheld in Hrc.
  pose proof (lookup_lt_Some _ _ _ Ho) as Hlt.
  rewrite (release_found _ _ _ Ho), Hrc, Hd.
  change (int (Z.of_nat 1 + -1) =? 0) with true.
  cbn [data fmap option_fmap option_map]. split; [reflexivity|].
  eexists. split.
  - rewrite (GetStream_absent _ _ (delete (name o) m));
      [|reflexivity|apply lookup_delete_eq].
    cbn [heap dirname]. rewrite length_alter. reflexivity.
  - cbn [heap]. split; [lia|]. split.
    + rewrite <- (length_alter (add_refcnt (-1)) (heap b) p).
      by rewrite list_lookup_middle.
    + rewrite lookup_app_l by (rewrite length_alter; lia).
      rewrite list_lookup_alter_eq, Ho. cbn. unfold add_refcnt.
      by rewrite Hrc.
Qed.

Lemma last_release_then_fresh_handle_witness :
  let b0 := NewLedis "/var/db" in
  let b1 := after_GetStream "a" b0 in
  let o := mkObj "a" "a" (mkRW 0 false) 1 in
  let m : gmap string nat := <["a" := 0%nat]> ∅ in
  data (release 0 b1) = Some (delete (name o) m)
  /\ exists b2,
       GetStream (name o) (release 0 b1)
       = Done ((length (heap b1), None), b2)
       /\ length (heap b1) <> 0%nat
       /\ heap b2 !! length (heap b1)
          = Some (mkObj (name o) (name o) (mkRW 0 false) 1)
       /\ heap b2 !! 0%nat
          = Some (mkObj (name o) (key o) (delLock o) 0).
Proof.
  intros b0 b1 o m.
  apply (last_release_then_fresh_handle 1 b1 (acquire 0 (fun _ => O)) m 0 o).
  - apply (reach_GetStream 0 b0 _ "a" 0%nat b1); [|vm_compute; reflexivity].
    apply reach_new.
  - lia.
  - vm_compute. reflexivity.
  - vm_compute. reflexivity.
  - reflexivity.
Defined.

(** X19: [Close] is final for the table.  After it, whatever handles are
    released and however often [Close] is called again, [GetStream] never
    returns a handle or an error: it stops on the store into the nil
    map. *)
Theorem GetStream_after_Close_panics (b : ledisBackend) (ps : list nat)
        (nm : string) :
  let closed := (ledisBackend_Close b).1 in
  let later := foldr release closed ps in
  data later = None
  /\ GetStream nm later = Fatal "assignment to entry in nil map"
  /\ GetStream nm (ledisBackend_Close later).1
     = Fatal "assignment to entry in nil map".
Proof.
  intros closed later.
  assert (Hd : data later = None).
  { unfold later. induction ps as [|p ps IH]; [reflexivity|].
    cbn [foldr]. by apply release_closed. }
  split; [exact Hd|]. split; [by apply GetStream_closed|reflexivity].
Qed.

(** * Further properties of the registry *)

Section RegistryMore.

Context {Backend Args : Type}.
Implicit Types (backends : registry Backend Args).
Implicit Types (creator : BackendCreator Backend Args).

Lemma Create_eq btype args backends :
  Create btype args backends
  = match creator_of btype backends with
    | None =>
        (None,
         Some (errors_New
                 ("Create: no backend type " +:+ dquote +:+ btype +:+ dquote)))
    | Some r => r args
    end.
Proof. reflexivity. Qed.

Lemma RegisterCreator_table btype creator backends :
  (RegisterCreator btype creator backends).2
  = Some (match creator_of btype backends with
          | Some _ => default ∅ backends
          | None => <[btype := creator]> (default ∅ backends)
          end).
Proof.
  unfold RegisterCreator. fold (creator_of btype backends).
  by destruct (creator_of btype backends).
Qed.

(** What a registration leaves under each name: the first creator
    registered under it. *)
Lemma creator_of_RegisterCreator btype creator backends other :
  creator_of other (RegisterCreator btype creator backends).2
  = match creator_of other backends with
    | Some c => Some c
    | None => if decide (other = btype) then Some creator else None
    end.
Proof.
  rewrite RegisterCreator_table.
  destruct (creator_of btype backends) as [c|] eqn:Hb.
  - change (creator_of other (Some (default ∅ backends)))
      with (creator_of other backends).
    destruct (creator_of other backends) as [c'|] eqn:Ho; [done|].
    case_decide; [|done]. subst. congruence.
  - unfold creator_of in *. cbn.
    destruct (decide (other = btype)) as [->|Hne].
    + rewrite lookup_insert_eq. by rewrite Hb.
    + rewrite lookup_insert_ne by done.
      by destruct (default ∅ backends !! other).
Qed.

(** X20: the table is write-once per name.  Registering a creator under a
    free name succeeds; [Create] on that name then returns what this
    creator returns; the result of [Create] on every other name is as
    before; and a later registration under the same name is refused and
    does not replace it. *)
Theorem RegisterCreator_then_Create btype creator creator2 args backends :
  creator_of btype backends = None ->
  let backends' := (RegisterCreator btype creator backends).2 in
  (RegisterCreator btype creator backends).1 = None
  /\ Create btype args backends' = creator args
  /\ (forall other, other <> btype ->
        Create other args backends' = Create other args backends)
  /\ is_Some (RegisterCreator btype creator2 backends').1
  /\ Create btype args (RegisterCreator btype creator2 backends').2
     = creator args.
Proof.
  intros Hfree backends'.
  assert (Hnew : creator_of btype backends' = Some creator).
  { unfold backends'. rewrite creator_of_RegisterCreator, Hfree.
    by rewrite decide_True. }
  split; [|split; [|split; [|split]]].
  - unfold RegisterCreator. fold (creator_of btype backends).
    by rewrite Hfree.
  - by rewrite Create_eq, Hnew.
  - intros other Hne. rewrite !Create_eq. unfold backends'.
    rewrite creator_of_RegisterCreator.
    destruct (creator_of other backends); [done|]. by rewrite decide_False.
  - unfold RegisterCreator. fold (creator_of btype backends').
    by rewrite Hnew.
  - rewrite Create_eq, creator_of_RegisterCreator. by rewrite Hnew.
Qed.

Lemma CreatorTypes_elem backends x :
  x ∈ CreatorTypes backends <-> is_Some (creator_of x backends).
Proof.
  unfold CreatorTypes, creator_of. rewrite list_elem_of_fmap. split.
  - intros [[k c] [-> Hin]]. apply elem_of_map_to_list in Hin. by exists c.
  - intros [c Hc]. exists (x, c). split; [done|].
    by apply elem_of_map_to_list.
Qed.

Lemma CreatorTypes_NoDup backends : NoDup (CreatorTypes backends).
Proof. unfold CreatorTypes. apply NoDup_fst_map_to_list. Qed.


End RegistryMore.

Lemma RegisterCreator_then_Create_witness :
  let first : BackendCreator string string :=
    fun dir => (Some ("first at " +:+ dir), None) in
  let second : BackendCreator string string :=
    fun dir => (Some ("second at " +:+ dir), None) in
  let backends' := (RegisterCreator "ledis" first None).2 in
  (RegisterCreator "ledis" first None).1 = None
  /\ Create "ledis" "/var/db" backends' = first "/var/db"
  /\ (forall other, other <> "ledis" ->
        Create other "/var/db" backends' = Create other "/var/db" None)
  /\ is_Some (RegisterCreator "ledis" second backends').1
  /\ Create "ledis" "/var/db" (RegisterCreator "ledis" second backends').2
     = first "/var/db".
Proof.
  intros first second.
  apply (RegisterCreator_then_Create "ledis" first second "/var/db" None).
  reflexivity.
Defined.


(** ** The default creators *)

Section DefaultsFacts.

Context {Backend : Type}.
Context (NewNil NewMem : Backend) (NewHttp : string -> Backend).
Context (as_Backend : ledisBackend -> Backend).
Context (open_engine : string -> option error).

Abbreviation defaults :=
  (RegisterDefault NewNil NewMem NewHttp as_Backend open_engine).

Lemma RegisterCreator_registered {Args} btype
      (creator : BackendCreator Backend Args) (backends : registry Backend Args) :
  is_Some (creator_of btype backends) ->
  is_Some backends ->
  (RegisterCreator btype creator backends).2 = backends.
Proof.
  intros [c Hc] [m ->]. rewrite RegisterCreator_table. by rewrite Hc.
Qed.

Lemma RegisterCreator_is_Some {Args} btype
      (creator : BackendCreator Backend Args) (backends : registry Backend Args) :
  is_Some (RegisterCreator btype creator backends).2.
Proof. rewrite RegisterCreator_table. by eexists. Qed.

(** The creator found under a name after [RegisterDefault]: the one that
    was there, else the default of that name, else none. *)
Lemma creator_of_RegisterDefault (backends : registry Backend Arg) x :
  creator_of x (defaults backends)
  = match creator_of x backends with
    | Some c => Some c
    | None =>
        if decide (x = "nil") then Some (nil_creator NewNil)
        else if decide (x = "mem") then Some (mem_creator NewMem)
        else if decide (x = "ledis")
             then Some (ledis_creator as_Backend open_engine)
        else if decide (x = "http") then Some (http_creator NewHttp)
        else None
    end.
Proof.
  unfold RegisterDefault. rewrite !creator_of_RegisterCreator.
  destruct (creator_of x backends); [done|].
  repeat case_decide; done.
Qed.

(** X22: [RegisterDefault] never replaces a creator that is already
    registered, under one of its four names or any other, and calling it a
    second time changes nothing. *)
Theorem RegisterDefault_keeps_and_repeats (backends : registry Backend Arg) :
  (forall x c,
     creator_of x backends = Some c ->
     creator_of x (defaults backends) = Some c)
  /\ defaults (defaults backends) = defaults backends.
Proof.
  split.
  - intros x c Hc. by rewrite creator_of_RegisterDefault, Hc.
  - assert (Hin : forall x, x ∈ ["nil"; "mem"; "ledis"; "http"] ->
                            is_Some (creator_of x (defaults backends))).
    { intros x Hx. rewrite creator_of_RegisterDefault.
      destruct (creator_of x backends); [by eexists|].
      repeat (apply elem_of_cons in Hx as [->|Hx]; [by eexists|]).
      by apply elem_of_nil in Hx. }
    assert (Hsome : is_Some (defaults backends)).
    { unfold RegisterDefault. apply RegisterCreator_is_Some. }
    unfold RegisterDefault at 1.
    rewrite (RegisterCreator_registered "nil");
      [|apply Hin; set_solver|done].
    rewrite (RegisterCreator_registered "mem");
      [|apply Hin; set_solver|done].
    rewrite (RegisterCreator_registered "ledis");
      [|apply Hin; set_solver|done].
    rewrite (RegisterCreator_registered "http");
      [|apply Hin; set_solver|done].
    reflexivity.
Qed.

(** X23: on the empty table [RegisterDefault] registers the four names
    [nil], [mem], [ledis] and [http] and no other.  The [ledis] and [http]
    creators refuse an argument that is not a string with an error of their
    own, before any engine is opened; on a string the [ledis] creator
    returns what [NewLedis] returns, the engine's error included; the [nil]
    and [mem] creators ignore their argument. *)
Theorem RegisterDefault_on_empty (arg : Arg) (dir shown : string) :
  CreatorTypes (defaults None) ≡ₚ ["nil"; "mem"; "ledis"; "http"]
  /\ Create "nil" arg (defaults None) = (Some NewNil, None)
  /\ Create "mem" arg (defaults None) = (Some NewMem, None)
  /\ Create "ledis" (ArgString dir) (defaults None)
     = NewLedis_opened as_Backend open_engine dir
  /\ (forall e, open_engine dir = Some e ->
        Create "ledis" (ArgString dir) (defaults None) = (None, Some e))
  /\ Create "ledis" (ArgOther shown) (defaults None)
     = (None,
        Some (errors_New
                ("ledis creator: Expected *string as arg, got " +:+ shown)))
  /\ Create "http" (ArgString dir) (defaults None) = (Some (NewHttp dir), None)
  /\ Create "http" (ArgOther shown) (defaults None)
     = (None,
        Some (errors_New
                ("http-default creator: Expected *string as arg, got "
                   +:+ shown))).
Proof.
  split.
  - apply NoDup_Permutation.
    + apply CreatorTypes_NoDup.
    + apply (bool_decide_unpack _). by vm_compute.
    + intros x.
      rewrite CreatorTypes_elem, creator_of_RegisterDefault, creator_of_nil.
      rewrite !elem_of_cons, elem_of_nil.
      repeat case_decide; subst; split; intros Hx;
        try (by eexists); try tauto; try (by destruct Hx); naive_solver.
  - assert (Hledis : Create "ledis" (ArgString dir) (defaults None)
                     = NewLedis_opened as_Backend open_engine dir).
    { by rewrite Create_eq, creator_of_RegisterDefault, creator_of_nil. }
    split; [by rewrite Create_eq, creator_of_RegisterDefault, creator_of_nil|].
    split; [by rewrite Create_eq, creator_of_RegisterDefault, creator_of_nil|].
    split; [exact Hledis|].
    split.
    { intros e He. rewrite Hledis. unfold NewLedis_opened. by rewrite He. }
    repeat split;
      by rewrite Create_eq, creator_of_RegisterDefault, creator_of_nil.
Qed.

End DefaultsFacts.

Lemma RegisterDefault_keeps_and_repeats_witness :
  let custom : BackendCreator string Arg :=
    fun _ => (Some "a backend of the caller", None) in
  let defaults :=
    RegisterDefault "nil backend" "memory backend"
      (fun url => "http backend at " +:+ url)
      (fun b => "ledis backend at " +:+ dirname b)
      (fun _ => None) in
  let backends := (RegisterCreator "ledis" custom None).2 in
  creator_of "ledis" (defaults backends) = Some custom
  /\ defaults (defaults backends) = defaults backends.
Proof.
  intros custom defaults backends.
  destruct (RegisterDefault_keeps_and_repeats
              "nil backend" "memory backend"
              (fun url => "http backend at " +:+ url)
              (fun b => "ledis backend at " +:+ dirname b)
              (fun _ => None) backends) as [Hkeep Hrepeat].
  split.
  - apply Hkeep. reflexivity.
  - exact Hrepeat.
Defined.

Lemma RegisterDefault_on_empty_witness :
  let open_engine : string -> option error :=
    fun dir => if String.eqb dir "/missing"
               then Some (EngineError "cannot open the data directory")
               else None in
  Create "ledis" (ArgString "/missing")
         (RegisterDefault "nil backend" "memory backend"
            (fun url => "http backend at " +:+ url)
            (fun b => "ledis backend at " +:+ dirname b)
            open_engine None)
  = (None, Some (EngineError "cannot open the data directory")).
Proof.
  intros open_engine.
  destruct (RegisterDefault_on_empty
              "nil backend" "memory backend"
              (fun url => "http backend at " +:+ url)
              (fun b => "ledis backend at " +:+ dirname b)
              open_engine (ArgOther "42") "/missing" "42")
    as (_ & _ & _ & _ & Hfail & _).
  apply Hfail. reflexivity.
Defined.

(** * Add and Read together *)

(** X24: an event that was added is read back.  After a successful [Add]
    of a byte slice on a healthy engine, [Read] from the old length to
    [-1], consumed to its end, yields that one event and nothing else, and
    leaves the lock as it was before the [Add]. *)
Theorem Add_then_Read_back (bs : list byte) (w : world) :
  let len := ledis.llen (db w) (key (self w)) in
  writer (lock_of w) = false ->
  healthy w ->
  len + 1 < 2 ^ 31 ->
  exists w' w'',
    Add (VBytes bs) w = Done (None, w')
    /\ read_range 2 len (-1) w' = Done (Some ([bs], EOI), w'')
    /\ lock_of w'' = lock_of w
    /\ stream_of w'' = stream_of w ++ [bs].
Proof.
  intros len Hw Hh Hlen.
  pose proof (healthy_next_ok _ Hh) as Hok.
  set (w' := with_db (ledis.lset (ledis.tick (db w)).2 (key (self w))
                        (ledis.lget (db w) (key (self w)) ++ [bs])) w).
  assert (Hadd : Add (VBytes bs) w = Done (None, w')).
  { by rewrite (Add_bytes _ _ Hw), (RPush_ok _ _ _ Hok). }
  assert (Hs' : stream_of w' = stream_of w ++ [bs]).
  { unfold stream_of, w'. cbn. by rewrite lget_lset. }
  assert (Hlen' : ledis.llen (db w') (key (self w')) = len + 1).
  { rewrite llen_stream_of, Hs', length_app. unfold len.
    rewrite llen_stream_of. cbn. lia. }
  assert (Hlen0 : 0 <= len) by (unfold len, ledis.llen; lia).
  change (2 ^ 31) with 2147483648 in Hlen.
  assert (Hi : forall z, 0 <= z <= len + 1 -> is_int z).
  { intros z Hz. unfold is_int.
    change (2 ^ 63) with 9223372036854775808. lia. }
  destruct (read_range_slice len (-1) w' len (len + 1))
    as (w'' & Hr & Hl & Hs & _).
  { rewrite int_small by (apply Hi; lia). lia. }
  { exact Hw. }
  { unfold w', healthy. cbn. rewrite faults_lset. by apply healthy_tick. }
  { rewrite Hlen'. rewrite !int_small by (apply Hi; lia).
    rewrite normalize_neg_to; [f_equal; lia|lia|lia|].
    apply Hi. lia. }
  { lia. }
  { lia. }
  { rewrite Hlen'. lia. }
  { rewrite Hlen'. change (2 ^ 31) with 2147483648. lia. }
  exists w', w''. split; [exact Hadd|]. split; [|split].
  - replace (len + 1 - len) with 1 in Hr by lia.
    change (S (Z.to_nat 1)) with 2%nat in Hr. rewrite Hr. do 3 f_equal.
    rewrite Hs'. unfold len. rewrite llen_stream_of, Nat2Z.id.
    rewrite drop_app_length. reflexivity.
  - by rewrite Hl.
  - by rewrite Hs.
Qed.

Lemma Add_then_Read_back_witness :
  let w := handle_on [e0; e1] [] in
  exists w' w'',
    Add (VBytes e2) w = Done (None, w')
    /\ read_range 2 2 (-1) w' = Done (Some ([e2], EOI), w'')
    /\ lock_of w'' = lock_of w
    /\ stream_of w'' = stream_of w ++ [e2].
Proof.
  intros w. apply (Add_then_Read_back e2 w).
  - reflexivity.
  - constructor.
  - vm_compute. reflexivity.
Defined.
